(** * ngx_freebsd_sendfile_chain: a shallow embedding and its properties

    The development follows [src/os/unix/ngx_freebsd_sendfile_chain.c]:
    the hunk (segment) record and the flag macros it tests, the two
    iovec-building loops, the file-hunk coalescing loop, the dispatch to
    [sendfile()] or [writev()], the walk that consumes the sent bytes, and
    the enclosing [do ... while] loop.

    Conventions.
    - Pointers and file offsets are integers ([Z]); the chain is the list of
      the hunks its links point to, and a chain pointer is a suffix of that
      list ([[]] is [NULL]).  The hunks of a chain are distinct objects.
    - [size_t] is 64 bits wide (LP64); the casts of the source are written
      with [to_size_t] and [to_ssize_t].
    - The kernel is a script: each attempt of the loop reads the results of
      its system calls from one [attempt_env]. *)

From Stdlib Require Import ZArith List Bool Lia.
Import ListNotations.
Open Scope Z_scope.

(** ** Hunks *)

Module Hunk.

Record hunk : Type := mkHunk {
  type      : Z;   (* flag bits *)
  pos       : Z;   (* u_char *pos  *)
  last      : Z;   (* u_char *last *)
  file_pos  : Z;   (* off_t file_pos  *)
  file_last : Z;   (* off_t file_last *)
  fd        : Z    (* file->fd *)
}.

(** Modelled from the spec: the flag constants and the three hunk macros are
    declared in the hunk header, which is not part of the sources at hand.
    The spec's data model has special segments (no bytes, a flush or last
    marker), memory segments and file segments, possibly both memory- and
    file-flagged, with the remaining length taken from the memory cursors
    when the segment is in memory and from the file cursors otherwise. *)
Definition NGX_HUNK_IN_MEMORY : Z := 0x0001.
Definition NGX_HUNK_FILE      : Z := 0x0020.
Definition NGX_HUNK_FLUSH     : Z := 0x0100.
Definition NGX_HUNK_LAST      : Z := 0x0200.

Definition to_size_t (z : Z) : Z := z mod 2 ^ 64.

Definition to_ssize_t (z : Z) : Z :=
  let w := z mod 2 ^ 64 in if w <? 2 ^ 63 then w else w - 2 ^ 64.

(* h->type & NGX_HUNK_IN_MEMORY *)
Definition in_memory (h : hunk) : bool :=
  negb (Z.land (type h) NGX_HUNK_IN_MEMORY =? 0).

(* h->type & NGX_HUNK_FILE *)
Definition in_file (h : hunk) : bool :=
  negb (Z.land (type h) NGX_HUNK_FILE =? 0).

Definition ngx_hunk_in_memory_only (h : hunk) : bool :=
  Z.land (type h) (Z.lor NGX_HUNK_IN_MEMORY NGX_HUNK_FILE)
    =? NGX_HUNK_IN_MEMORY.

Definition ngx_hunk_special (h : hunk) : bool :=
  type h =? Z.land (type h) (Z.lor NGX_HUNK_FLUSH NGX_HUNK_LAST).

Definition ngx_hunk_size (h : hunk) : Z :=
  if in_memory h then to_size_t (last h - pos h)
  else to_size_t (file_last h - file_pos h).

(** The two in-place updates of the walk (lines 278-284 and 289-295). *)
Definition retire (h : hunk) : hunk :=
  let h1 := if in_memory h
            then mkHunk (type h) (last h) (last h) (file_pos h) (file_last h) (fd h)
            else h in
  if in_file h1
  then mkHunk (type h1) (pos h1) (last h1) (file_last h1) (file_last h1) (fd h1)
  else h1.

Definition shift (sent : Z) (h : hunk) : hunk :=
  let h1 := if in_memory h
            then mkHunk (type h) (pos h + sent) (last h) (file_pos h) (file_last h) (fd h)
            else h in
  if in_file h1
  then mkHunk (type h1) (pos h1) (last h1) (file_pos h1 + sent) (file_last h1) (fd h1)
  else h1.

(** A segment of the spec's data model: special, or flagged memory and/or
    file with start <= end on the cursor pair that gives its length. *)
Definition hunk_ok (h : hunk) : bool :=
  ngx_hunk_special h
  || ((in_memory h || in_file h)
      && (if in_memory h
          then (pos h <=? last h) && (last h - pos h <? 2 ^ 63)
          else (file_pos h <=? file_last h)
               && (file_last h - file_pos h <? 2 ^ 63))).

(** Remaining length of a segment as the walk sees it ([ssize_t size]). *)
Definition remaining (h : hunk) : Z := to_ssize_t (ngx_hunk_size h).

Fixpoint chain_size (cl : list hunk) : Z :=
  match cl with
  | [] => 0
  | h :: tl =>
      (if ngx_hunk_special h then 0 else remaining h) + chain_size tl
  end.

End Hunk.
Import Hunk.

(** ** The progress walk (lines 263-300)

    [advance sent cl] returns the hunks the walk has passed, as it leaves
    them, and the chain that starts at the link where it stopped ([in = cl]
    of line 300). *)
Fixpoint advance (sent : Z) (cl : list hunk) : list hunk * list hunk :=
  match cl with
  | [] => ([], [])
  | h :: tl =>
      if ngx_hunk_special h then
        let (passed, rest) := advance sent tl in (h :: passed, rest)
      else if sent =? 0 then ([], h :: tl)
      else
        let size := to_ssize_t (ngx_hunk_size h) in
        if sent >=? size then
          let (passed, rest) := advance (sent - size) tl in
          (retire h :: passed, rest)
        else ([], shift sent h :: tl)
  end.

(** ** The chain classifier (lines 79-161) *)

Record iovec : Type := mkIov { iov_base : Z; iov_len : Z }.

(** An [ngx_array_t] of iovecs is kept newest entry first: [iov], the
    pointer to the entry pushed last, is the head of the list. *)
Definition iov_extend (n : Z) (a : list iovec) : list iovec :=
  match a with
  | e :: a' => mkIov (iov_base e) (to_size_t (iov_len e + n)) :: a'
  | [] => []   (* iov is NULL exactly when prev is NULL *)
  end.

(** [prev == cl->hunk->pos]; [prev] is [NULL] ([None]) before the first
    memory hunk, and the address of a hunk's bytes is never [NULL]. *)
Definition prev_is (prev : option Z) (p : Z) : bool :=
  match prev with
  | Some q => q =? p
  | None => false
  end.

(** Lines 82-102.  Returns the header array, [hsize] and [cl]. *)
Fixpoint header_loop (iov_max : Z) (prev : option Z) (header : list iovec)
    (hsize : Z) (cl : list hunk) : list iovec * Z * list hunk :=
  match cl with
  | [] => (header, hsize, [])
  | h :: tl =>
      if negb (Z.of_nat (length header) <? iov_max) then (header, hsize, cl)
      else if ngx_hunk_special h then header_loop iov_max prev header hsize tl
      else if negb (ngx_hunk_in_memory_only h) then (header, hsize, cl)
      else
        let header' :=
          if prev_is prev (pos h)
          then iov_extend (last h - pos h) header
          else mkIov (pos h) (to_size_t (last h - pos h)) :: header in
        header_loop iov_max (Some (last h)) header'
                    (to_size_t (hsize + (last h - pos h))) tl
  end.

(** Lines 114-124.  Returns [fsize] and [cl]. *)
Fixpoint file_loop (file : hunk) (fsize fprev : Z) (cl : list hunk)
    : Z * list hunk :=
  match cl with
  | [] => (fsize, [])
  | h :: tl =>
      if negb (in_file h) then (fsize, cl)
      else if negb (fd file =? fd h) || negb (fprev =? file_pos h)
      then (fsize, cl)
      else file_loop file
             (to_size_t (fsize + to_size_t (file_last h - file_pos h)))
             (file_last h) tl
  end.

(** Lines 133-153.  Returns the trailer array and [cl]. *)
Fixpoint trailer_loop (iov_max : Z) (prev : option Z) (trailer : list iovec)
    (cl : list hunk) : list iovec * list hunk :=
  match cl with
  | [] => (trailer, [])
  | h :: tl =>
      if negb (Z.of_nat (length trailer) <? iov_max) then (trailer, cl)
      else if ngx_hunk_special h then trailer_loop iov_max prev trailer tl
      else if negb (ngx_hunk_in_memory_only h) then (trailer, cl)
      else
        let trailer' :=
          if prev_is prev (pos h)
          then iov_extend (last h - pos h) trailer
          else mkIov (pos h) (to_size_t (last h - pos h)) :: trailer in
        trailer_loop iov_max (Some (last h)) trailer' tl
  end.

Record classified : Type := mkClassified {
  k_header  : list iovec;      (* header.elts, in array order *)
  k_hsize   : Z;
  k_file    : option hunk;     (* file, NULL when there is none *)
  k_fsize   : Z;
  k_trailer : list iovec;      (* trailer.elts, in array order *)
  k_tail    : list hunk        (* tail *)
}.

Definition classify (iov_max : Z) (chain : list hunk) : classified :=
  let '(header, hsize, cl) := header_loop iov_max None [] 0 chain in
  match cl with
  | file :: cl1 =>
      if in_file file then
        let '(fsize, cl2) :=
          file_loop file (to_size_t (file_last file - file_pos file))
                    (file_last file) cl1 in
        let '(trailer, cl3) := trailer_loop iov_max None [] cl2 in
        mkClassified (rev header) hsize (Some file) fsize (rev trailer) cl3
      else mkClassified (rev header) hsize None 0 [] cl
  | [] => mkClassified (rev header) hsize None 0 [] []
  end.

(** ** Connection, platform and kernel *)

Record connection : Type := mkConn {
  wev_ready    : bool;   (* c->write->ready *)
  wev_kq_eof   : bool;   (* c->write->kq_eof *)
  wev_error    : bool;   (* c->write->error *)
  c_tcp_nopush : Z;      (* c->tcp_nopush *)
  c_sent       : Z       (* c->sent *)
}.

(** The platform values the function reads but does not define: the
    [IOV_MAX] limit, whether kqueue events are in use
    ([HAVE_KQUEUE] and [ngx_event_flags & NGX_HAVE_KQUEUE_EVENT]), and the
    two FreeBSD globals. *)
Record platform : Type := mkPlatform {
  IOV_MAX                         : Z;
  kqueue_event                    : bool;
  ngx_freebsd_use_tcp_nopush      : Z;
  ngx_freebsd_sendfile_nbytes_bug : Z
}.

(** Modelled from the spec: the two error numbers the function tells apart
    ("interrupted" and "would block") come from the system headers; the
    values are FreeBSD's [EINTR] and [EAGAIN]. *)
Definition NGX_EINTR  : Z := 4.
Definition NGX_EAGAIN : Z := 35.

(** What the kernel and the pool answer during one pass of the loop body:
    whether the pool can serve the two arrays, the result of
    [ngx_tcp_nopush()] if it is called ([None] is success, [Some err] is
    [NGX_ERROR] with that [ngx_errno]), and the result of the transfer call:
    its return value, [ngx_errno], and for [sendfile()] the byte count it
    stores through [&sent]. *)
Record attempt_env : Type := mkEnv {
  pool_ok    : bool;
  nopush_ret : option Z;
  xfer_rc    : Z;
  xfer_errno : Z;
  xfer_sent  : Z
}.

Inductive syscall : Type :=
| Sys_tcp_nopush
| Sys_sendfile (file_fd offset nbytes : Z) (headers trailers : list iovec)
| Sys_writev (iov : list iovec).

Definition set_error (c : connection) : connection :=
  mkConn (wev_ready c) (wev_kq_eof c) true (c_tcp_nopush c) (c_sent c).

Definition set_nopush (c : connection) : connection :=
  mkConn (wev_ready c) (wev_kq_eof c) (wev_error c) 1 (c_sent c).

Definition clear_ready (c : connection) : connection :=
  mkConn false (wev_kq_eof c) (wev_error c) (c_tcp_nopush c) (c_sent c).

Definition add_sent (n : Z) (c : connection) : connection :=
  mkConn (wev_ready c) (wev_kq_eof c) (wev_error c) (c_tcp_nopush c)
         (c_sent c + n).

(** ** One pass of the loop body (lines 66-300) *)

Inductive outcome : Type :=
| Fatal (c : connection) (calls : list syscall)
    (* return NGX_CHAIN_ERROR *)
| Advanced (c : connection) (passed rest tail : list hunk)
    (eintr eagain : bool) (calls : list syscall).

(** Lines 165-187: [Some] is the connection to go on with, [None] is the
    fatal return; the calls made come with both. *)
Definition nopush_step (pl : platform) (e : attempt_env) (c : connection)
    : option connection * connection * list syscall :=
  if negb (ngx_freebsd_use_tcp_nopush pl =? 0) && (c_tcp_nopush c =? 0) then
    match nopush_ret e with
    | Some err =>
        if negb (err =? NGX_EINTR)
        then (None, set_error c, [Sys_tcp_nopush])
        else (Some c, c, [Sys_tcp_nopush])
    | None => (Some (set_nopush c), set_nopush c, [Sys_tcp_nopush])
    end
  else (Some c, c, []).

(** Lines 199-206: the [nbytes] argument of [sendfile()]. *)
Definition sendfile_nbytes (pl : platform) (k : classified) : Z :=
  let hsize :=
    if ngx_freebsd_sendfile_nbytes_bug pl =? 0 then 0 else k_hsize k in
  to_size_t (k_fsize k + hsize).

(** Lines 261-300. *)
Definition account (c : connection) (sent : Z) (cl tail : list hunk)
    (eintr eagain : bool) (calls : list syscall) : outcome :=
  let (passed, rest) := advance sent cl in
  Advanced (add_sent sent c) passed rest tail eintr eagain calls.

Definition attempt (pl : platform) (e : attempt_env) (c : connection)
    (cl : list hunk) : outcome :=
  if negb (pool_ok e) then Fatal c []
  else
    let k := classify (IOV_MAX pl) cl in
    match k_file k with
    | Some file =>
        match nopush_step pl e c with
        | (None, c1, calls) => Fatal c1 calls
        | (Some c1, _, calls) =>
            let call :=
              Sys_sendfile (fd file) (file_pos file) (sendfile_nbytes pl k)
                           (k_header k) (k_trailer k) in
            let sent := xfer_sent e in
            if xfer_rc e =? -1 then
              let err := xfer_errno e in
              if (err =? NGX_EAGAIN) || (err =? NGX_EINTR) then
                account c1 sent cl (k_tail k)
                        (err =? NGX_EINTR) (negb (err =? NGX_EINTR))
                        (calls ++ [call])
              else Fatal (set_error c1) (calls ++ [call])
            else account c1 sent cl (k_tail k) false false (calls ++ [call])
        end
    | None =>
        let call := Sys_writev (k_header k) in
        let rc := xfer_rc e in
        if rc =? -1 then
          let err := xfer_errno e in
          if (err =? NGX_EAGAIN) || (err =? NGX_EINTR) then
            account c 0 cl (k_tail k) (err =? NGX_EINTR) false [call]
          else Fatal (set_error c) [call]
        else
          account c (if rc >? 0 then rc else 0) cl (k_tail k)
                  false false [call]
    end.

(** ** The function (lines 31-324) *)

Record result : Type := mkResult {
  r_chain : option (list hunk);  (* None is NGX_CHAIN_ERROR, Some [] is NULL *)
  r_conn  : connection;
  r_hunks : list hunk;           (* every hunk of the input chain, in chain
                                    order, as the call leaves it *)
  r_calls : list syscall
}.

(** [tail && tail == in]: both point into the same chain, so they are the
    same link exactly when as many links follow them. *)
Definition tail_is_in (tail rest : list hunk) : bool :=
  match tail with
  | [] => false
  | _ :: _ => (length tail =? length rest)%nat
  end.

(** The [do ... while] loop; [before] holds the hunks already passed and
    [calls] the system calls already made.  [None]: the script of kernel
    answers ended before the loop did. *)
Fixpoint send_loop (pl : platform) (script : list attempt_env)
    (c : connection) (before : list hunk) (calls : list syscall)
    (cl : list hunk) : option result :=
  match script with
  | [] => None
  | e :: script' =>
      match attempt pl e c cl with
      | Fatal c1 calls1 =>
          Some (mkResult None c1 (before ++ cl) (calls ++ calls1))
      | Advanced c1 passed rest tail eintr eagain calls1 =>
          if eagain then
            Some (mkResult (Some rest) (clear_ready c1)
                           (before ++ passed ++ rest) (calls ++ calls1))
          else if tail_is_in tail rest || eintr then
            send_loop pl script' c1 (before ++ passed) (calls ++ calls1) rest
          else
            Some (mkResult (Some rest)
                           (match rest with
                            | [] => c1
                            | _ :: _ => clear_ready c1
                            end)
                           (before ++ passed ++ rest) (calls ++ calls1))
      end
  end.

Definition ngx_freebsd_sendfile_chain (pl : platform)
    (script : list attempt_env) (c : connection) (chain : list hunk)
    : option result :=
  if negb (wev_ready c) then Some (mkResult (Some chain) c chain [])
  else if kqueue_event pl && wev_kq_eof c then
    Some (mkResult None (set_error c) chain [])
  else send_loop pl script c [] [] chain.

(** ** Vocabulary of the properties *)

(** How the walk leaves a hunk it has gone past. *)
Definition pass (h : hunk) : hunk :=
  if ngx_hunk_special h then h else retire h.

(** Start cursor equal to end cursor, on each cursor pair the hunk has. *)
Definition retired (h : hunk) : Prop :=
  (in_memory h = true -> pos h = last h)
  /\ (in_file h = true -> file_pos h = file_last h).

(** The number of links in front of "the first segment whose remaining
    length strictly exceeds the remaining budget", the budget going down by
    the length of every non-special segment that fits in it. *)
Fixpoint first_exceeding (budget : Z) (cl : list hunk) : nat :=
  match cl with
  | [] => O
  | h :: tl =>
      if ngx_hunk_special h then S (first_exceeding budget tl)
      else if remaining h <=? budget
           then S (first_exceeding (budget - remaining h) tl)
           else O
  end.

(** The number of links in front of the link the walk returns. *)
Definition new_head_index (sent : Z) (cl : list hunk) : nat :=
  length (fst (advance sent cl)).

(** What the walk does with a budget [C]: the links [before] the new head
    are passed, each non-special one met with a positive budget that covers
    it; the walk stops at the end of the chain or at [stop]. *)
Definition walk_spec (C : Z) (cl : list hunk) : Prop :=
  exists before stop,
    cl = before ++ stop
    /\ fst (advance C cl) = map pass before
    /\ (forall a x b, before = a ++ x :: b -> ngx_hunk_special x = false ->
          0 < C - chain_size a /\ remaining x <= C - chain_size a)
    /\ match stop with
       | [] => snd (advance C cl) = [] /\ chain_size before = C
       | h :: tl =>
           ngx_hunk_special h = false
           /\ 0 <= C - chain_size before
           /\ (C - chain_size before = 0
               \/ C - chain_size before < remaining h)
           /\ snd (advance C cl) = shift (C - chain_size before) h :: tl
       end.

(** ** Sample hunks *)

Definition mem_hunk (p l : Z) : hunk := mkHunk NGX_HUNK_IN_MEMORY p l 0 0 0.

Definition file_hunk (f p l : Z) : hunk := mkHunk NGX_HUNK_FILE 0 0 p l f.

Definition flush_hunk : hunk := mkHunk NGX_HUNK_FLUSH 0 0 0 0 0.

(** ** Observations on one pass and on a result *)

Definition attempt_calls (o : outcome) : list syscall :=
  match o with
  | Fatal _ calls => calls
  | Advanced _ _ _ _ _ _ calls => calls
  end.



Definition is_sendfile (s : syscall) : bool :=
  match s with
  | Sys_sendfile _ _ _ _ _ => true
  | _ => false
  end.

(** Sample platforms and answers of the kernel. *)
Definition freebsd (nopush bug : Z) : platform := mkPlatform 1024 true nopush bug.

Definition ready_conn : connection := mkConn true false false 0 0.

Definition env_ok (rc sent : Z) : attempt_env := mkEnv true None rc 0 sent.

Definition env_err (err sent : Z) : attempt_env := mkEnv true None (-1) err sent.

(** The chain from its first non-special link on. *)
Fixpoint skip_special (cl : list hunk) : list hunk :=
  match cl with
  | [] => []
  | h :: tl => if ngx_hunk_special h then skip_special tl else cl
  end.

(** [ngx_tcp_nopush()], if called, does not end the call: it succeeds or is
    interrupted. *)
Definition nopush_harmless (e : attempt_env) : bool :=
  match nopush_ret e with
  | Some err => err =? NGX_EINTR
  | None => true
  end.

(** The byte count a successful transfer call reports ([sent] at line 261):
    what [sendfile()] stores through [&sent], or the positive return value
    of [writev()]. *)
Definition reported_sent (pl : platform) (e : attempt_env)
    (chain : list hunk) : Z :=
  match k_file (classify (IOV_MAX pl) chain) with
  | Some _ => xfer_sent e
  | None => if xfer_rc e >? 0 then xfer_rc e else 0
  end.

(** No memory segment is next in line for the vector being built: the
    chain ends, or its first non-special segment is not memory-only. *)
Definition no_more_memory (cl : list hunk) : bool :=
  match skip_special cl with
  | [] => true
  | h :: _ => negb (ngx_hunk_in_memory_only h)
  end.

(** [end cursor of the first == start cursor of the second] *)
Definition contiguous (a b : hunk) : bool := last a =? pos b.

(** The file loop (lines 114-124) goes no further: the chain ends, or its
    next link is not a file hunk, is on another file, or does not start
    where the previous one ended. *)
Definition file_run_stops (file : hunk) (fprev : Z) (cl : list hunk) : bool :=
  match cl with
  | [] => true
  | h :: _ =>
      negb (in_file h) || negb (fd file =? fd h) || negb (fprev =? file_pos h)
  end.

(** A pass on a chain without file region ends the call with the error
    value: the pool cannot serve the arrays, or [writev()] fails with an
    error that is neither "would block" nor "interrupted". *)
Definition writev_pass_fails (e : attempt_env) : bool :=
  negb (pool_ok e)
  || ((xfer_rc e =? -1)
      && negb ((xfer_errno e =? NGX_EAGAIN) || (xfer_errno e =? NGX_EINTR))).

(** ** Vocabulary of the further properties *)

(** What the function never writes in a hunk: the flags, the two end
    cursors and the file. *)
Definition same_ends (a b : hunk) : Prop :=
  type a = type b /\ last a = last b /\ file_last a = file_last b
  /\ fd a = fd b.

(** The start cursor that gives the hunk its length ([ngx_hunk_size]). *)
Definition start_cursor (h : hunk) : Z :=
  if in_memory h then pos h else file_pos h.

(** How a pass may leave the connection: readiness, the kqueue end-of-file
    mark and the fault flag as they were (the caller of the pass deals with
    those), the TCP_NOPUSH flag as it was or switched from 0 to 1. *)
Definition nopush_kept_or_set (pl : platform) (c c1 : connection) : Prop :=
  c_tcp_nopush c1 = c_tcp_nopush c
  \/ (ngx_freebsd_use_tcp_nopush pl <> 0 /\ c_tcp_nopush c = 0
      /\ c_tcp_nopush c1 = 1).

(** The result of the rest of a call, seen from its start: the hunks passed
    and the system calls made before come in front. *)
Definition extend_result (before : list hunk) (calls : list syscall)
    (r : result) : result :=
  mkResult (r_chain r) (r_conn r) (before ++ r_hunks r) (calls ++ r_calls r).

(** The kernel reports, in every pass, a byte count between zero and the
    bytes left in the chain it was offered. *)
Fixpoint kernel_within (pl : platform) (script : list attempt_env)
    (cl : list hunk) : bool :=
  match script with
  | [] => true
  | e :: script' =>
      let n := reported_sent pl e cl in
      (0 <=? n) && (n <=? chain_size cl)
      && kernel_within pl script' (snd (advance n cl))
  end.

(** The hunk is a marker, or its flags say where its bytes are. *)
Definition has_kind (h : hunk) : bool :=
  ngx_hunk_special h || in_memory h || in_file h.

(** The transfer call of the pass is not interrupted. *)
Definition not_interrupted (e : attempt_env) : bool :=
  negb ((xfer_rc e =? -1) && (xfer_errno e =? NGX_EINTR)).

(** The bytes a vector describes, added up without wrap-around. *)
Fixpoint iov_total (v : list iovec) : Z :=
  match v with
  | [] => 0
  | e :: v' => iov_len e + iov_total v'
  end.

(** The vectors a system call is given have at most [limit] entries. *)
Definition vectors_within (limit : Z) (s : syscall) : Prop :=
  match s with
  | Sys_tcp_nopush => True
  | Sys_sendfile _ _ _ headers trailers =>
      Z.of_nat (length headers) <= limit
      /\ Z.of_nat (length trailers) <= limit
  | Sys_writev iov => Z.of_nat (length iov) <= limit
  end.

(** A link the vector loops take: a marker or a memory-only hunk. *)
Definition vector_part (h : hunk) : bool :=
  ngx_hunk_special h || ngx_hunk_in_memory_only h.

(** The memory bytes of the links a vector loop has taken. *)
Fixpoint memory_bytes (l : list hunk) : Z :=
  match l with
  | [] => 0
  | h :: t =>
      (if ngx_hunk_special h then 0 else last h - pos h) + memory_bytes t
  end.

(** The file bytes of a run of file hunks. *)
Fixpoint file_bytes (l : list hunk) : Z :=
  match l with
  | [] => 0
  | h :: t => (file_last h - file_pos h) + file_bytes t
  end.

(** A run of file hunks that continues the region of [file] from offset
    [fprev]: every one is on the file of [file] and starts where the one
    before ended. *)
Fixpoint file_run (file : hunk) (fprev : Z) (l : list hunk) : bool :=
  match l with
  | [] => true
  | h :: t =>
      in_file h && (fd file =? fd h) && (fprev =? file_pos h)
      && file_run file (file_last h) t
  end.

(** The hunk still has bytes to send, unless it is a marker. *)
Definition not_exhausted (h : hunk) : bool :=
  ngx_hunk_special h || (0 <? remaining h).

Definition is_writev (s : syscall) : Prop :=
  match s with
  | Sys_writev _ => True
  | _ => False
  end.

(** No hunk of the chain starts where the hunk before it ends ([prev] is
    the end of the hunk in front of the chain, if any). *)
Fixpoint apart (prev : option Z) (cl : list hunk) : bool :=
  match cl with
  | [] => true
  | h :: t => negb (prev_is prev (pos h)) && apart (Some (last h)) t
  end.

(** The vector entry of a memory hunk on its own. *)
Definition entry_of (h : hunk) : iovec :=
  mkIov (pos h) (to_size_t (last h - pos h)).

(** ** Arithmetic of the casts and of the flags *)

Lemma to_size_t_small (z : Z) : 0 <= z < 2 ^ 64 -> to_size_t z = z.
Proof. intro H. unfold to_size_t. apply Z.mod_small. exact H. Qed.

Lemma to_ssize_t_small (z : Z) : 0 <= z < 2 ^ 63 -> to_ssize_t z = z.
Proof.
  intro H. unfold to_ssize_t.
  rewrite Z.mod_small by lia.
  destruct (Z.ltb_spec z (2 ^ 63)); lia.
Qed.

Lemma special_no_data (h : hunk) :
  ngx_hunk_special h = true -> in_memory h = false /\ in_file h = false.
Proof.
  unfold ngx_hunk_special, in_memory, in_file. intro H.
  apply Z.eqb_eq in H.
  assert (Hm : Z.land (type h) NGX_HUNK_IN_MEMORY = 0).
  { rewrite H, <- Z.land_assoc.
    change (Z.land (Z.lor NGX_HUNK_FLUSH NGX_HUNK_LAST) NGX_HUNK_IN_MEMORY)
      with 0.
    apply Z.land_0_r. }
  assert (Hf : Z.land (type h) NGX_HUNK_FILE = 0).
  { rewrite H, <- Z.land_assoc.
    change (Z.land (Z.lor NGX_HUNK_FLUSH NGX_HUNK_LAST) NGX_HUNK_FILE) with 0.
    apply Z.land_0_r. }
  rewrite Hm, Hf. split; reflexivity.
Qed.

Lemma memory_only_flags (h : hunk) :
  ngx_hunk_in_memory_only h = true ->
  in_memory h = true /\ in_file h = false /\ ngx_hunk_special h = false.
Proof.
  unfold ngx_hunk_in_memory_only. intro H. apply Z.eqb_eq in H.
  assert (Hm : Z.land (type h) NGX_HUNK_IN_MEMORY = NGX_HUNK_IN_MEMORY).
  { change NGX_HUNK_IN_MEMORY
      with (Z.land (Z.lor NGX_HUNK_IN_MEMORY NGX_HUNK_FILE) NGX_HUNK_IN_MEMORY)
      at 1.
    rewrite Z.land_assoc, H. reflexivity. }
  assert (Hf : Z.land (type h) NGX_HUNK_FILE = 0).
  { change NGX_HUNK_FILE
      with (Z.land (Z.lor NGX_HUNK_IN_MEMORY NGX_HUNK_FILE) NGX_HUNK_FILE)
      at 1.
    rewrite Z.land_assoc, H. reflexivity. }
  assert (Him : in_memory h = true).
  { unfold in_memory. rewrite Hm. reflexivity. }
  repeat split.
  - exact Him.
  - unfold in_file. rewrite Hf. reflexivity.
  - destruct (ngx_hunk_special h) eqn:Hs; [|reflexivity].
    apply special_no_data in Hs. destruct Hs as [Hs _]. congruence.
Qed.

(** ** The in-place updates *)

Lemma type_retire (h : hunk) : type (retire h) = type h.
Proof. unfold retire. destruct (in_memory h); simpl; destruct (in_file _); reflexivity. Qed.

Lemma type_shift (n : Z) (h : hunk) : type (shift n h) = type h.
Proof. unfold shift. destruct (in_memory h); simpl; destruct (in_file _); reflexivity. Qed.

Lemma special_retire (h : hunk) :
  ngx_hunk_special (retire h) = ngx_hunk_special h.
Proof. unfold ngx_hunk_special. rewrite type_retire. reflexivity. Qed.

Lemma special_shift (n : Z) (h : hunk) :
  ngx_hunk_special (shift n h) = ngx_hunk_special h.
Proof. unfold ngx_hunk_special. rewrite type_shift. reflexivity. Qed.

Lemma in_memory_retire (h : hunk) : in_memory (retire h) = in_memory h.
Proof. unfold in_memory. rewrite type_retire. reflexivity. Qed.

Lemma in_file_retire (h : hunk) : in_file (retire h) = in_file h.
Proof. unfold in_file. rewrite type_retire. reflexivity. Qed.

Lemma in_memory_shift (n : Z) (h : hunk) : in_memory (shift n h) = in_memory h.
Proof. unfold in_memory. rewrite type_shift. reflexivity. Qed.

Lemma retire_retired (h : hunk) : retired (retire h).
Proof.
  unfold retired. rewrite in_memory_retire, in_file_retire.
  unfold retire.
  destruct (in_memory h) eqn:Hm; simpl;
    [ change (in_file (mkHunk (type h) (last h) (last h) (file_pos h)
                              (file_last h) (fd h))) with (in_file h) |];
    destruct (in_file h) eqn:Hf; simpl; split; intro; congruence.
Qed.

Lemma shift_0 (h : hunk) : shift 0 h = h.
Proof.
  unfold shift. destruct h as [t p l fp fl f].
  destruct (in_memory _); simpl;
    match goal with |- context [in_file ?x] => destruct (in_file x) end;
    simpl; rewrite ?Z.add_0_r; reflexivity.
Qed.

Lemma ok_remaining (h : hunk) :
  hunk_ok h = true -> ngx_hunk_special h = false ->
  remaining h = (if in_memory h then last h - pos h
                 else file_last h - file_pos h)
  /\ 0 <= remaining h < 2 ^ 63
  /\ (in_memory h = false -> in_file h = true).
Proof.
  unfold hunk_ok, remaining, ngx_hunk_size. intros Hok Hs.
  rewrite Hs in Hok. simpl in Hok.
  apply andb_true_iff in Hok. destruct Hok as [Hk Hr].
  destruct (in_memory h); simpl in Hk;
    apply andb_true_iff in Hr; destruct Hr as [Hle Hlt];
    apply Z.leb_le in Hle; apply Z.ltb_lt in Hlt;
    rewrite to_size_t_small by lia; rewrite to_ssize_t_small by lia;
    (split; [reflexivity | split; [lia | intro; congruence]]).
Qed.

Lemma remaining_retire (h : hunk) :
  hunk_ok h = true -> ngx_hunk_special h = false -> remaining (retire h) = 0.
Proof.
  intros Hok Hs. destruct (ok_remaining h Hok Hs) as (_ & _ & Hk).
  pose proof (retire_retired h) as [Rm Rf].
  rewrite in_memory_retire in Rm. rewrite in_file_retire in Rf.
  unfold remaining, ngx_hunk_size. rewrite in_memory_retire.
  destruct (in_memory h).
  - rewrite Rm by reflexivity. rewrite Z.sub_diag. reflexivity.
  - rewrite Rf by (apply Hk; reflexivity). rewrite Z.sub_diag. reflexivity.
Qed.

Lemma remaining_shift (n : Z) (h : hunk) :
  hunk_ok h = true -> ngx_hunk_special h = false ->
  0 <= n <= remaining h -> remaining (shift n h) = remaining h - n.
Proof.
  intros Hok Hs Hn. destruct (ok_remaining h Hok Hs) as (Hr & Hb & Hk).
  rewrite Hr. rewrite Hr in Hn, Hb.
  unfold remaining, ngx_hunk_size. rewrite in_memory_shift.
  unfold shift.
  destruct (in_memory h) eqn:Hm.
  - change (in_file (mkHunk (type h) (pos h + n) (last h) (file_pos h)
                            (file_last h) (fd h))) with (in_file h).
    destruct (in_file h); simpl;
      rewrite to_size_t_small by lia; rewrite to_ssize_t_small by lia; lia.
  - rewrite (Hk eq_refl). simpl.
    rewrite to_size_t_small by lia. rewrite to_ssize_t_small by lia. lia.
Qed.

Lemma chain_size_app (a b : list hunk) :
  chain_size (a ++ b) = chain_size a + chain_size b.
Proof. induction a as [|h a IH]; simpl; [reflexivity | rewrite IH; lia]. Qed.

Lemma chain_size_nonneg (cl : list hunk) :
  forallb hunk_ok cl = true -> 0 <= chain_size cl.
Proof.
  induction cl as [|h tl IH]; simpl; intro H; [lia|].
  apply andb_true_iff in H. destruct H as [Hh Ht].
  specialize (IH Ht).
  destruct (ngx_hunk_special h) eqn:Hs; [lia|].
  destruct (ok_remaining h Hh Hs) as (_ & Hb & _). lia.
Qed.

(** ** The progress walk *)

Lemma advance_special (sent : Z) (h : hunk) (tl : list hunk) :
  ngx_hunk_special h = true ->
  advance sent (h :: tl)
  = (h :: fst (advance sent tl), snd (advance sent tl)).
Proof. intro Hs. simpl. rewrite Hs. destruct (advance sent tl); reflexivity. Qed.

Lemma advance_stop (h : hunk) (tl : list hunk) :
  ngx_hunk_special h = false -> advance 0 (h :: tl) = ([], h :: tl).
Proof. intro Hs. simpl. rewrite Hs. reflexivity. Qed.

Lemma advance_retire (sent : Z) (h : hunk) (tl : list hunk) :
  ngx_hunk_special h = false -> sent <> 0 -> remaining h <= sent ->
  advance sent (h :: tl)
  = (retire h :: fst (advance (sent - remaining h) tl),
     snd (advance (sent - remaining h) tl)).
Proof.
  intros Hs Hn Hle. simpl. rewrite Hs.
  destruct (Z.eqb_spec sent 0) as [|_]; [contradiction|].
  fold (remaining h).
  destruct (Z.geb_spec sent (remaining h)) as [_|Hlt]; [|lia].
  destruct (advance (sent - remaining h) tl); reflexivity.
Qed.

Lemma advance_shift (sent : Z) (h : hunk) (tl : list hunk) :
  ngx_hunk_special h = false -> sent <> 0 -> sent < remaining h ->
  advance sent (h :: tl) = ([], shift sent h :: tl).
Proof.
  intros Hs Hn Hlt. simpl. rewrite Hs.
  destruct (Z.eqb_spec sent 0) as [|_]; [contradiction|].
  fold (remaining h).
  destruct (Z.geb_spec sent (remaining h)) as [Hge|_]; [lia|reflexivity].
Qed.

Lemma advance_walk (cl : list hunk) :
  forallb hunk_ok cl = true ->
  forall C, 0 <= C <= chain_size cl -> walk_spec C cl.
Proof.
  induction cl as [|h tl IH]; intros Hok C HC.
  - simpl in HC. exists [], []. simpl.
    split; [reflexivity|]. split; [reflexivity|].
    split; [intros a x b Hab; destruct a; discriminate|].
    split; [reflexivity|lia].
  - simpl in Hok. apply andb_true_iff in Hok. destruct Hok as [Hh Ht].
    specialize (IH Ht). simpl chain_size in HC.
    destruct (ngx_hunk_special h) eqn:Hs.
    + destruct (IH C ltac:(lia)) as (before & stop & E & Hp & Hb & Hstop).
      exists (h :: before), stop. rewrite (advance_special C h tl Hs).
      simpl fst. simpl snd. simpl chain_size. rewrite Hs. simpl.
      split; [rewrite E; reflexivity|].
      split; [unfold pass at 1; rewrite Hs, Hp; reflexivity|].
      split; [|exact Hstop].
      intros a x b Hab Hx. destruct a as [|y a']; simpl in Hab.
      * injection Hab as Hy _. congruence.
      * injection Hab as Hy Hab. subst y. simpl. rewrite Hs.
        apply (Hb a' x b Hab Hx).
    + destruct (ok_remaining h Hh Hs) as (_ & Hr & _).
      destruct (Z.eq_dec C 0) as [->|Hn].
      * exists [], (h :: tl). rewrite (advance_stop h tl Hs). simpl.
        rewrite shift_0.
        split; [reflexivity|]. split; [reflexivity|].
        split; [intros a x b Hab; destruct a; discriminate|].
        repeat split; try lia; auto.
      * destruct (Z_le_gt_dec (remaining h) C) as [Hle|Hgt].
        -- destruct (IH (C - remaining h) ltac:(lia))
             as (before & stop & E & Hp & Hb & Hstop).
           exists (h :: before), stop.
           rewrite (advance_retire C h tl Hs Hn Hle).
           simpl fst. simpl snd. simpl chain_size. rewrite Hs. simpl.
           split; [rewrite E; reflexivity|].
           split; [unfold pass at 1; rewrite Hs, Hp; reflexivity|].
           split.
           ++ intros a x b Hab Hx. destruct a as [|y a']; simpl in Hab.
              ** injection Hab as Hy _. subst x. simpl. lia.
              ** injection Hab as Hy Hab. subst y. simpl. rewrite Hs.
                 specialize (Hb a' x b Hab Hx). lia.
           ++ destruct stop as [|s stop'].
              ** destruct Hstop. split; [assumption|lia].
              ** replace (C - (remaining h + chain_size before))
                   with (C - remaining h - chain_size before) by lia.
                 exact Hstop.
        -- exists [], (h :: tl).
           rewrite (advance_shift C h tl Hs Hn ltac:(lia)). simpl.
           rewrite Z.sub_0_r.
           split; [reflexivity|]. split; [reflexivity|].
           split; [intros a x b Hab; destruct a; discriminate|].
           repeat split; try lia; auto.
Qed.

Lemma chain_size_pass (l : list hunk) :
  forallb hunk_ok l = true -> chain_size (map pass l) = 0.
Proof.
  induction l as [|h tl IH]; simpl; intro H; [reflexivity|].
  apply andb_true_iff in H. destruct H as [Hh Ht]. rewrite (IH Ht).
  unfold pass. destruct (ngx_hunk_special h) eqn:Hs.
  - rewrite Hs. reflexivity.
  - rewrite special_retire, Hs, remaining_retire by assumption. reflexivity.
Qed.

Lemma pass_retired (l : list hunk) :
  Forall (fun h => ngx_hunk_special h = true \/ retired h) (map pass l).
Proof.
  induction l as [|h tl IH]; simpl; constructor; try exact IH.
  unfold pass. destruct (ngx_hunk_special h) eqn:Hs.
  - left. exact Hs.
  - right. apply retire_retired.
Qed.

(** C1, as amended.  For a chain of well-formed segments and a sent-byte
    count [C] with [0 <= C <= chain_size cl], the walk consumes exactly [C]
    bytes in chain order: every link before the new head is passed, a
    special one untouched and any other one retired (start cursors equal to
    end cursors), each met with a positive budget that covers its remaining
    length; the walk stops at the end of the chain with the budget used up,
    or at the first non-special segment that it reaches with a budget of
    zero or that is strictly longer than the budget, which gets its start
    cursors advanced by exactly that budget and is the new head; the
    remaining length of the chain goes down by exactly [C]. *)
Theorem advance_consumes_exactly (cl : list hunk) (C : Z)
    (Hok : forallb hunk_ok cl = true) (HC : 0 <= C <= chain_size cl) :
  walk_spec C cl
  /\ Forall (fun h => ngx_hunk_special h = true \/ retired h)
            (fst (advance C cl))
  /\ chain_size (fst (advance C cl)) = 0
  /\ chain_size (snd (advance C cl)) = chain_size cl - C.
Proof.
  pose proof (advance_walk cl Hok C HC) as W.
  split; [exact W|].
  destruct W as (before & stop & E & Hp & Hb & Hstop).
  assert (Hokb : forallb hunk_ok before = true /\ forallb hunk_ok stop = true).
  { rewrite E, forallb_app in Hok. apply andb_true_iff in Hok. exact Hok. }
  destruct Hokb as [Hokb Hoks].
  split; [rewrite Hp; apply pass_retired|].
  split; [rewrite Hp; apply chain_size_pass; exact Hokb|].
  replace (chain_size cl) with (chain_size before + chain_size stop)
    by (rewrite E, chain_size_app; reflexivity).
  destruct stop as [|h tl].
  - destruct Hstop as [-> <-]. simpl. lia.
  - destruct Hstop as (Hs & H0 & Hlt & ->).
    simpl in Hoks. apply andb_true_iff in Hoks. destruct Hoks as [Hh _].
    destruct (ok_remaining h Hh Hs) as (_ & Hr & _).
    simpl. rewrite special_shift, Hs.
    rewrite remaining_shift by (try assumption; lia). lia.
Qed.

Lemma advance_consumes_exactly_witness :
  let cl := [mem_hunk 100 104; flush_hunk; file_hunk 3 0 10] in
  forallb hunk_ok cl = true /\ 0 <= 6 <= chain_size cl
  /\ walk_spec 6 cl
  /\ chain_size (snd (advance 6 cl)) = chain_size cl - 6.
Proof.
  intro cl.
  assert (Hok : forallb hunk_ok cl = true) by reflexivity.
  assert (HC : 0 <= 6 <= chain_size cl) by (vm_compute; split; discriminate).
  split; [exact Hok|]. split; [exact HC|].
  destruct (advance_consumes_exactly cl 6 Hok HC) as (W & _ & _ & Hsz).
  split; [exact W | exact Hsz].
Defined.

(** C1, the claim as stated fails: with the budget used up, the walk stops
    at a segment of remaining length zero, not at the first segment strictly
    longer than the budget.  Chain: 3 bytes of memory, an exhausted memory
    segment, 5 bytes of memory; 3 bytes sent.  The first segment longer than
    the budget left is the third (two links before it); the walk returns
    the second (one link before it). *)
Lemma advance_stops_before_first_exceeding :
  let cl := [mem_hunk 100 103; mem_hunk 200 200; mem_hunk 300 305] in
  forallb hunk_ok cl = true
  /\ 0 <= 3 <= chain_size cl
  /\ first_exceeding 3 cl = 2%nat
  /\ new_head_index 3 cl = 1%nat
  /\ new_head_index 3 cl <> first_exceeding 3 cl
  /\ snd (advance 3 cl) = [mem_hunk 200 200; mem_hunk 300 305].
Proof.
  vm_compute. repeat split; discriminate.
Qed.

(** ** The classifier: ranges of the sizes *)

Lemma to_size_t_range (z : Z) : 0 <= to_size_t z < 2 ^ 64.
Proof. unfold to_size_t. apply Z.mod_pos_bound. lia. Qed.

Lemma file_loop_range (file : hunk) (cl : list hunk) :
  forall fsize fprev,
    0 <= fsize < 2 ^ 64 ->
    0 <= fst (file_loop file fsize fprev cl) < 2 ^ 64.
Proof.
  induction cl as [|h tl IH]; intros fsize fprev Hr; simpl; [exact Hr|].
  destruct (in_file h); simpl; [|exact Hr].
  destruct (negb (fd file =? fd h) || negb (fprev =? file_pos h));
    [exact Hr|].
  apply IH, to_size_t_range.
Qed.

Lemma classify_fsize_range (iov_max : Z) (chain : list hunk) :
  0 <= k_fsize (classify iov_max chain) < 2 ^ 64.
Proof.
  unfold classify.
  destruct (header_loop iov_max None [] 0 chain) as [[header hsize] cl].
  destruct cl as [|file cl1]; simpl; [lia|].
  destruct (in_file file); simpl; [|lia].
  pose proof (file_loop_range file cl1
                (to_size_t (file_last file - file_pos file))
                (file_last file) (to_size_t_range _)) as Hr.
  destruct (file_loop file _ (file_last file) cl1) as [fsize cl2].
  destruct (trailer_loop iov_max None [] cl2) as [trailer cl3].
  exact Hr.
Qed.

(** ** The [nbytes] argument of [sendfile()] *)

Lemma nopush_step_calls (pl : platform) (e : attempt_env) (c : connection) :
  snd (nopush_step pl e c) = []
  \/ snd (nopush_step pl e c) = [Sys_tcp_nopush].
Proof.
  unfold nopush_step.
  destruct (negb (ngx_freebsd_use_tcp_nopush pl =? 0) && (c_tcp_nopush c =? 0));
    [|left; reflexivity].
  destruct (nopush_ret e) as [err|]; [|right; reflexivity].
  destruct (negb (err =? NGX_EINTR)); right; reflexivity.
Qed.

Lemma account_calls (c : connection) (sent : Z) (cl tail : list hunk)
    (eintr eagain : bool) (calls : list syscall) :
  attempt_calls (account c sent cl tail eintr eagain calls) = calls.
Proof. unfold account. destruct (advance sent cl). reflexivity. Qed.

Lemma attempt_sendfile_args (pl : platform) (e : attempt_env)
    (c : connection) (chain : list hunk) (s : syscall) :
  In s (attempt_calls (attempt pl e c chain)) -> is_sendfile s = true ->
  let k := classify (IOV_MAX pl) chain in
  exists file, k_file k = Some file
    /\ s = Sys_sendfile (fd file) (file_pos file) (sendfile_nbytes pl k)
                        (k_header k) (k_trailer k).
Proof.
  intros Hin Hs k. unfold attempt in Hin. fold k in Hin.
  destruct (pool_ok e); simpl in Hin; [|contradiction].
  destruct (k_file k) as [file|] eqn:Hf.
  - exists file. split; [reflexivity|].
    pose proof (nopush_step_calls pl e c) as Hc.
    destruct (nopush_step pl e c) as [[o c1] calls]. simpl in Hc.
    assert (Hcalls : forall x, In x calls -> x = Sys_tcp_nopush).
    { intros x Hx. destruct Hc as [-> | ->]; simpl in Hx; intuition. }
    assert (Hend : In s (calls ++
              [Sys_sendfile (fd file) (file_pos file) (sendfile_nbytes pl k)
                            (k_header k) (k_trailer k)]) ->
            s = Sys_sendfile (fd file) (file_pos file) (sendfile_nbytes pl k)
                             (k_header k) (k_trailer k)).
    { intro H. apply in_app_or in H. destruct H as [H|H].
      - apply Hcalls in H. subst s. discriminate.
      - simpl in H. destruct H as [H|[]]. symmetry. exact H. }
    destruct o as [c2|].
    + destruct (xfer_rc e =? -1).
      * destruct ((xfer_errno e =? NGX_EAGAIN) || (xfer_errno e =? NGX_EINTR)).
        -- rewrite account_calls in Hin. apply Hend, Hin.
        -- apply Hend, Hin.
      * rewrite account_calls in Hin. apply Hend, Hin.
    + simpl in Hin. apply Hcalls in Hin. subst s. discriminate.
  - destruct (xfer_rc e =? -1).
    + destruct ((xfer_errno e =? NGX_EAGAIN) || (xfer_errno e =? NGX_EINTR)).
      * rewrite account_calls in Hin. simpl in Hin.
        destruct Hin as [<-|[]]. discriminate.
      * simpl in Hin. destruct Hin as [<-|[]]. discriminate.
    + rewrite account_calls in Hin. simpl in Hin.
      destruct Hin as [<-|[]]. discriminate.
Qed.

(** C2, as amended.  The flag works the other way round than claimed: when
    [ngx_freebsd_sendfile_nbytes_bug] is zero the header size is dropped and
    the requested total is the length of the file region alone; when the
    flag is set the requested total is the length of the file region plus the
    header size (in [size_t] arithmetic).  This is the [nbytes] argument of
    every [sendfile()] call a pass of the loop makes. *)
Theorem sendfile_nbytes_by_flag (pl : platform) (e : attempt_env)
    (c : connection) (chain : list hunk)
    (file_fd offset nbytes : Z) (headers trailers : list iovec)
    (Hcall : In (Sys_sendfile file_fd offset nbytes headers trailers)
                (attempt_calls (attempt pl e c chain))) :
  let k := classify (IOV_MAX pl) chain in
  nbytes = if ngx_freebsd_sendfile_nbytes_bug pl =? 0
           then k_fsize k
           else to_size_t (k_fsize k + k_hsize k).
Proof.
  intro k.
  destruct (attempt_sendfile_args pl e c chain _ Hcall eq_refl)
    as (file & _ & Heq).
  injection Heq as _ _ -> _ _. fold k. unfold sendfile_nbytes.
  destruct (ngx_freebsd_sendfile_nbytes_bug pl =? 0); [|reflexivity].
  rewrite Z.add_0_r. apply to_size_t_small, classify_fsize_range.
Qed.

Lemma sendfile_nbytes_by_flag_witness :
  let chain := [mem_hunk 100 104; file_hunk 3 0 10] in
  In (Sys_sendfile 3 0 10 [mkIov 100 4] [])
     (attempt_calls (attempt (freebsd 0 0) (env_ok 0 14) ready_conn chain))
  /\ 10 = (let k := classify (IOV_MAX (freebsd 0 0)) chain in
           if ngx_freebsd_sendfile_nbytes_bug (freebsd 0 0) =? 0
           then k_fsize k
           else to_size_t (k_fsize k + k_hsize k)).
Proof.
  intro chain.
  assert (Hcall : In (Sys_sendfile 3 0 10 [mkIov 100 4] [])
     (attempt_calls (attempt (freebsd 0 0) (env_ok 0 14) ready_conn chain)))
    by (vm_compute; left; reflexivity).
  split; [exact Hcall|].
  exact (sendfile_nbytes_by_flag (freebsd 0 0) (env_ok 0 14) ready_conn chain
           3 0 10 [mkIov 100 4] [] Hcall).
Defined.

(** C2, the claim as stated fails.  Chain: 4 bytes of memory, then 10 bytes
    of a file.  With the flag set [sendfile()] is asked for 14 bytes, header
    included; with the flag clear it is asked for the 10 bytes of the file. *)
Lemma sendfile_nbytes_flag_set_includes_header :
  let chain := [mem_hunk 100 104; file_hunk 3 0 10] in
  let hdr := [mkIov 100 4] in
  k_fsize (classify 1024 chain) = 10
  /\ k_hsize (classify 1024 chain) = 4
  /\ attempt_calls (attempt (freebsd 0 1) (env_ok 0 14) ready_conn chain)
     = [Sys_sendfile 3 0 14 hdr []]
  /\ attempt_calls (attempt (freebsd 0 0) (env_ok 0 14) ready_conn chain)
     = [Sys_sendfile 3 0 10 hdr []].
Proof. vm_compute. repeat split; reflexivity. Qed.

(** ** Chains of special segments *)

Lemma header_loop_special (iov_max : Z) (cl : list hunk) :
  forallb ngx_hunk_special cl = true ->
  forall prev header hsize,
    exists cl', header_loop iov_max prev header hsize cl = (header, hsize, cl')
                /\ forallb ngx_hunk_special cl' = true.
Proof.
  induction cl as [|h tl IH]; intros Hsp prev header hsize; simpl.
  - exists []. split; reflexivity.
  - simpl in Hsp. apply andb_true_iff in Hsp. destruct Hsp as [Hh Ht].
    destruct (negb (Z.of_nat (length header) <? iov_max)).
    + exists (h :: tl). split; [reflexivity|]. simpl. rewrite Hh. exact Ht.
    + rewrite Hh. apply IH. exact Ht.
Qed.

Lemma classify_special (iov_max : Z) (chain : list hunk) :
  forallb ngx_hunk_special chain = true ->
  exists tail, classify iov_max chain = mkClassified [] 0 None 0 [] tail.
Proof.
  intro Hsp. unfold classify.
  destruct (header_loop_special iov_max chain Hsp None [] 0)
    as (cl' & -> & Hsp').
  destruct cl' as [|h tl].
  - exists []. reflexivity.
  - simpl in Hsp'. apply andb_true_iff in Hsp'. destruct Hsp' as [Hh _].
    apply special_no_data in Hh. destruct Hh as [_ ->].
    exists (h :: tl). reflexivity.
Qed.

Lemma advance_all_special (sent : Z) (cl : list hunk) :
  forallb ngx_hunk_special cl = true -> advance sent cl = (cl, []).
Proof.
  induction cl as [|h tl IH]; simpl; intro Hsp; [reflexivity|].
  apply andb_true_iff in Hsp. destruct Hsp as [-> Ht].
  rewrite (IH Ht). reflexivity.
Qed.

Lemma tail_is_in_nil (tail : list hunk) : tail_is_in tail [] = false.
Proof. destruct tail; reflexivity. Qed.

Lemma attempt_special (pl : platform) (e : attempt_env) (c : connection)
    (cl : list hunk) :
  forallb ngx_hunk_special cl = true ->
  exists tail,
    attempt pl e c cl
    = if negb (pool_ok e) then Fatal c []
      else if xfer_rc e =? -1 then
        if (xfer_errno e =? NGX_EAGAIN) || (xfer_errno e =? NGX_EINTR)
        then Advanced (add_sent 0 c) cl [] tail
                      (xfer_errno e =? NGX_EINTR) false [Sys_writev []]
        else Fatal (set_error c) [Sys_writev []]
      else Advanced (add_sent (if xfer_rc e >? 0 then xfer_rc e else 0) c)
                    cl [] tail false false [Sys_writev []].
Proof.
  intro Hsp. destruct (classify_special (IOV_MAX pl) cl Hsp) as [tail Hk].
  exists tail. unfold attempt. rewrite Hk. simpl.
  unfold account. rewrite !(advance_all_special _ cl Hsp). reflexivity.
Qed.

Lemma send_loop_special (pl : platform) (script : list attempt_env) :
  forall c before calls cl r,
    forallb ngx_hunk_special cl = true ->
    send_loop pl script c before calls cl = Some r ->
    r_hunks r = before ++ cl
    /\ wev_ready (r_conn r) = wev_ready c
    /\ (r_chain r = None \/ r_chain r = Some [])
    /\ exists more, r_calls r = calls ++ more
         /\ (forall e rest, script = e :: rest -> pool_ok e = true ->
               exists more', more = Sys_writev [] :: more').
Proof.
  induction script as [|e script IH]; intros c before calls cl r Hsp Hr;
    simpl in Hr; [discriminate|].
  destruct (attempt_special pl e c cl Hsp) as [tail Ha]. rewrite Ha in Hr.
  destruct (pool_ok e) eqn:Hpool; simpl in Hr.
  - assert (Hstop : forall n,
      Some (mkResult (Some []) (add_sent n c) (before ++ cl ++ [])
                     (calls ++ [Sys_writev []])) = Some r ->
      r_hunks r = before ++ cl
      /\ wev_ready (r_conn r) = wev_ready c
      /\ (r_chain r = None \/ r_chain r = Some [])
      /\ exists more, r_calls r = calls ++ more
           /\ (forall e0 rest, e :: script = e0 :: rest -> pool_ok e0 = true ->
                 exists more', more = Sys_writev [] :: more')).
    { intros n H. injection H as <-. simpl. rewrite app_nil_r.
      repeat split; auto.
      exists [Sys_writev []]. split; [reflexivity|].
      intros. exists []. reflexivity. }
    destruct (xfer_rc e =? -1).
    + destruct ((xfer_errno e =? NGX_EAGAIN) || (xfer_errno e =? NGX_EINTR)).
      * rewrite tail_is_in_nil in Hr. simpl in Hr.
        destruct (xfer_errno e =? NGX_EINTR).
        -- destruct (IH (add_sent 0 c) (before ++ cl)
                         (calls ++ [Sys_writev []]) [] r eq_refl Hr)
             as (Hh & Hrd & Hc & more & Hm & _).
           rewrite app_nil_r in Hh.
           repeat split; auto.
           exists ([Sys_writev []] ++ more).
           split; [rewrite Hm, app_assoc; reflexivity|].
           intros. exists more. reflexivity.
        -- apply (Hstop 0 Hr).
      * injection Hr as <-. simpl. repeat split; auto.
        exists [Sys_writev []]. split; [reflexivity|].
        intros. exists []. reflexivity.
    + rewrite tail_is_in_nil in Hr. simpl in Hr. apply (Hstop _ Hr).
  - injection Hr as <-. simpl. repeat split; auto.
    exists []. split; [rewrite app_nil_r; reflexivity|].
    intros e0 rest H Hp. injection H as <- _. congruence.
Qed.

Lemma send_loop_special_result (pl : platform) (script : list attempt_env) :
  forall c before calls cl r,
    forallb ngx_hunk_special cl = true ->
    send_loop pl script c before calls cl = Some r ->
    r_chain r = Some []
    \/ (r_chain r = None
        /\ exists e, In e script /\ writev_pass_fails e = true).
Proof.
  induction script as [|e script IH]; intros c before calls cl r Hsp Hr;
    simpl in Hr; [discriminate|].
  destruct (attempt_special pl e c cl Hsp) as [tail Ha]. rewrite Ha in Hr.
  unfold writev_pass_fails.
  destruct (pool_ok e) eqn:Hpool; simpl in Hr.
  - destruct (xfer_rc e =? -1) eqn:Hrc.
    + destruct ((xfer_errno e =? NGX_EAGAIN) || (xfer_errno e =? NGX_EINTR))
        eqn:Herr.
      * rewrite tail_is_in_nil in Hr. simpl in Hr.
        destruct (xfer_errno e =? NGX_EINTR).
        -- destruct (IH (add_sent 0 c) (before ++ cl)
                         (calls ++ [Sys_writev []]) [] r eq_refl Hr)
             as [Hn|(Hn & e' & Hin & Hfail)]; [left; exact Hn|].
           right. split; [exact Hn|].
           exists e'. split; [right; exact Hin | exact Hfail].
        -- left. injection Hr as <-. reflexivity.
      * right. injection Hr as <-. simpl.
        split; [reflexivity|].
        exists e. split; [left; reflexivity|].
        rewrite Hpool, Hrc, Herr. reflexivity.
    + rewrite tail_is_in_nil in Hr. simpl in Hr.
      left. injection Hr as <-. reflexivity.
  - right. injection Hr as <-. simpl.
    split; [reflexivity|].
    exists e. split; [left; reflexivity|]. rewrite Hpool. reflexivity.
Qed.

(** C3, as amended.  For a chain made of special segments only, the
    classifier yields empty header and trailer vectors and no file region.
    On a ready connection the dispatcher still calls [writev()], with the
    empty vector, as soon as the pool has served the arrays; no cursor of any
    segment changes and the write-readiness flag is left as it was.  The
    chain returned is not the input chain but [NULL] (the walk passes every
    special segment): when the first [writev()] succeeds or would block, the
    result is exactly [NULL] after that one call, with the fault flag
    untouched; when it fails with an error other than "would block" and
    "interrupted", the result is the error value with the fault flag set; in
    general the result is [NULL] unless some pass fails (the pool cannot
    serve the arrays, or [writev()] fails in that way), and only then is it
    the error value.  The function returns unless [writev()] is
    interrupted. *)
Theorem special_chain_is_written (pl : platform) (script : list attempt_env)
    (c : connection) (chain : list hunk)
    (Hsp : forallb ngx_hunk_special chain = true)
    (Hready : wev_ready c = true)
    (Hkq : kqueue_event pl && wev_kq_eof c = false) :
  let k := classify (IOV_MAX pl) chain in
  (k_header k = [] /\ k_trailer k = [] /\ k_file k = None)
  /\ (forall r, ngx_freebsd_sendfile_chain pl script c chain = Some r ->
        r_hunks r = chain
        /\ wev_ready (r_conn r) = wev_ready c
        /\ (r_chain r = Some []
            \/ (r_chain r = None
                /\ exists e, In e script /\ writev_pass_fails e = true))
        /\ (forall e rest, script = e :: rest -> pool_ok e = true ->
              exists more, r_calls r = Sys_writev [] :: more))
  /\ (forall e rest, script = e :: rest -> pool_ok e = true ->
        xfer_rc e <> -1 \/ xfer_errno e = NGX_EAGAIN ->
        ngx_freebsd_sendfile_chain pl script c chain
        = Some (mkResult (Some [])
                  (add_sent (if xfer_rc e >? 0 then xfer_rc e else 0) c)
                  chain [Sys_writev []]))
  /\ (forall e rest, script = e :: rest -> pool_ok e = true ->
        xfer_rc e = -1 -> xfer_errno e <> NGX_EAGAIN ->
        xfer_errno e <> NGX_EINTR ->
        ngx_freebsd_sendfile_chain pl script c chain
        = Some (mkResult None (set_error c) chain [Sys_writev []]))
  /\ (forall e rest, script = e :: rest ->
        (xfer_rc e =? -1) && (xfer_errno e =? NGX_EINTR) = false ->
        exists r, ngx_freebsd_sendfile_chain pl script c chain = Some r).
Proof.
  intro k. split; [|split; [|split; [|split]]].
  - destruct (classify_special (IOV_MAX pl) chain Hsp) as [tail Hk].
    unfold k. rewrite Hk. repeat split.
  - intros r Hr. unfold ngx_freebsd_sendfile_chain in Hr.
    rewrite Hready, Hkq in Hr. simpl in Hr.
    destruct (send_loop_special pl script c [] [] chain r Hsp Hr)
      as (Hh & Hrd & _ & more & Hm & Hw).
    split; [exact Hh|]. split; [exact Hrd|]. split.
    + destruct (send_loop_special_result pl script c [] [] chain r Hsp Hr)
        as [Hn|(Hn & Hf)]; [left; exact Hn | right; split; assumption].
    + intros e rest Hs Hp. destruct (Hw e rest Hs Hp) as [more' ->].
      exists more'. exact Hm.
  - intros e rest -> Hp Hx. unfold ngx_freebsd_sendfile_chain.
    rewrite Hready, Hkq. simpl.
    destruct (attempt_special pl e c chain Hsp) as [tail ->].
    rewrite Hp. simpl.
    destruct (Z.eqb_spec (xfer_rc e) (-1)) as [Hrc|Hrc].
    + destruct Hx as [Hx|Hx]; [contradiction|].
      rewrite Hx, Hrc. simpl. rewrite tail_is_in_nil. simpl.
      rewrite app_nil_r. reflexivity.
    + rewrite tail_is_in_nil. simpl. rewrite app_nil_r. reflexivity.
  - intros e rest -> Hp Hrc Ha Hi. unfold ngx_freebsd_sendfile_chain.
    rewrite Hready, Hkq. simpl.
    destruct (attempt_special pl e c chain Hsp) as [tail ->].
    apply Z.eqb_neq in Ha, Hi. rewrite Hp, Hrc, Ha, Hi. reflexivity.
  - intros e rest -> Hx. unfold ngx_freebsd_sendfile_chain.
    rewrite Hready, Hkq. simpl.
    destruct (attempt_special pl e c chain Hsp) as [tail ->].
    destruct (negb (pool_ok e)); [eexists; reflexivity|].
    destruct (xfer_rc e =? -1); simpl in Hx.
    + rewrite Hx, orb_false_r.
      destruct (xfer_errno e =? NGX_EAGAIN); [|eexists; reflexivity].
      rewrite tail_is_in_nil. eexists; reflexivity.
    + rewrite tail_is_in_nil. eexists; reflexivity.
Qed.

Lemma special_chain_is_written_witness :
  let pl := freebsd 1 0 in
  let script := [env_ok 0 0] in
  let chain := [flush_hunk; flush_hunk] in
  (forallb ngx_hunk_special chain = true
   /\ wev_ready ready_conn = true
   /\ kqueue_event pl && wev_kq_eof ready_conn = false)
  /\ ngx_freebsd_sendfile_chain pl script ready_conn chain
     = Some (mkResult (Some []) (add_sent 0 ready_conn) chain [Sys_writev []])
  /\ (forall r, ngx_freebsd_sendfile_chain pl script ready_conn chain = Some r ->
        r_hunks r = chain
        /\ wev_ready (r_conn r) = wev_ready ready_conn
        /\ (r_chain r = Some []
            \/ (r_chain r = None
                /\ exists e, In e script /\ writev_pass_fails e = true))
        /\ (forall e rest, script = e :: rest -> pool_ok e = true ->
              exists more, r_calls r = Sys_writev [] :: more)).
Proof.
  intros pl script chain.
  assert (Hsp : forallb ngx_hunk_special chain = true) by reflexivity.
  assert (Hready : wev_ready ready_conn = true) by reflexivity.
  assert (Hkq : kqueue_event pl && wev_kq_eof ready_conn = false)
    by reflexivity.
  destruct (special_chain_is_written pl script ready_conn chain Hsp Hready Hkq)
    as (_ & Hpart & Hnull & _ & _).
  split; [repeat split; assumption|].
  split; [|exact Hpart].
  apply (Hnull (env_ok 0 0) []); [reflexivity | reflexivity |].
  left. discriminate.
Defined.

(** C3, the claim as stated fails.  A ready connection and a chain of one
    flush marker: [writev()] is called with the empty vector, and the chain
    returned is [NULL], not the input chain. *)
Lemma special_chain_calls_writev_returns_null :
  ngx_freebsd_sendfile_chain (freebsd 1 0) [env_ok 0 0] ready_conn [flush_hunk]
  = Some (mkResult (Some []) ready_conn [flush_hunk] [Sys_writev []]).
Proof. vm_compute. reflexivity. Qed.

(** ** A walk with nothing sent *)

Lemma advance_zero (cl : list hunk) :
  snd (advance 0 cl) = skip_special cl
  /\ fst (advance 0 cl) ++ snd (advance 0 cl) = cl.
Proof.
  induction cl as [|h tl [IH1 IH2]]; simpl; [split; reflexivity|].
  destruct (ngx_hunk_special h); simpl.
  - destruct (advance 0 tl) as [p r]. simpl in *.
    split; [exact IH1 | rewrite IH2; reflexivity].
  - split; reflexivity.
Qed.

Lemma skip_special_head (h : hunk) (tl : list hunk) :
  ngx_hunk_special h = false -> skip_special (h :: tl) = h :: tl.
Proof. intro Hs. simpl. rewrite Hs. reflexivity. Qed.

(** ** Where the header loop stops *)

Lemma header_loop_length (iov_max : Z) (cl : list hunk) :
  forall prev header hsize,
    (length (snd (header_loop iov_max prev header hsize cl)) <= length cl)%nat.
Proof.
  induction cl as [|h tl IH]; intros prev header hsize; simpl; [lia|].
  destruct (negb (Z.of_nat (length header) <? iov_max)); simpl; [lia|].
  destruct (ngx_hunk_special h).
  - specialize (IH prev header hsize). lia.
  - destruct (negb (ngx_hunk_in_memory_only h)); simpl; [lia|].
    match goal with |- (length (snd (header_loop _ ?p ?a ?s tl)) <= _)%nat =>
      specialize (IH p a s) end.
    lia.
Qed.

Lemma land_1_cases (t : Z) : Z.land t 1 = 0 \/ Z.land t 1 = 1.
Proof.
  change 1 with (Z.ones 1). rewrite Z.land_ones by lia.
  change (2 ^ 1) with 2. change (Z.ones 1) with 1.
  pose proof (Z.mod_pos_bound t 2 ltac:(lia)). lia.
Qed.

Lemma memory_without_file (h : hunk) :
  in_memory h = true -> in_file h = false -> ngx_hunk_in_memory_only h = true.
Proof.
  unfold in_memory, in_file, ngx_hunk_in_memory_only. intros Hm Hf.
  apply negb_true_iff, Z.eqb_neq in Hm.
  apply negb_false_iff, Z.eqb_eq in Hf.
  rewrite Z.land_lor_distr_r, Hf, Z.lor_0_r.
  apply Z.eqb_eq. unfold NGX_HUNK_IN_MEMORY in *.
  destruct (land_1_cases (type h)); congruence.
Qed.

Lemma data_not_memory_only (h : hunk) :
  hunk_ok h = true -> ngx_hunk_special h = false ->
  ngx_hunk_in_memory_only h = false -> in_file h = true.
Proof.
  intros Hok Hs Hmo. destruct (ok_remaining h Hok Hs) as (_ & _ & Hk).
  destruct (in_file h) eqn:Hf; [reflexivity|].
  destruct (in_memory h) eqn:Hm; [|apply Hk; reflexivity].
  rewrite (memory_without_file h Hm Hf) in Hmo. discriminate.
Qed.

Lemma classify_no_file_tail (iov_max : Z) (chain : list hunk) :
  forallb hunk_ok chain = true -> 0 < iov_max ->
  k_file (classify iov_max chain) = None ->
  tail_is_in (k_tail (classify iov_max chain)) (skip_special chain) = false.
Proof.
  intros Hok Hmax. induction chain as [|h tl IH]; [reflexivity|].
  simpl in Hok. apply andb_true_iff in Hok. destruct Hok as [Hh Ht].
  unfold classify. simpl header_loop.
  destruct (Z.ltb_spec 0 iov_max) as [_|]; [|lia]. simpl negb. cbv iota.
  destruct (ngx_hunk_special h) eqn:Hs.
  - simpl skip_special. rewrite Hs. apply (IH Ht).
  - rewrite (skip_special_head h tl Hs).
    destruct (ngx_hunk_in_memory_only h) eqn:Hmo; simpl negb; cbv iota.
    + pose proof (header_loop_length iov_max tl (Some (last h))
                    [mkIov (pos h) (to_size_t (last h - pos h))]
                    (to_size_t (0 + (last h - pos h)))) as Hlen.
      simpl prev_is. cbv iota.
      destruct (header_loop iov_max (Some (last h)) _ _ tl)
        as [[header hsize] cl].
      simpl in Hlen. intro Hnone.
      assert (Htail : forall t, (length t <= length tl)%nat ->
                tail_is_in t (h :: tl) = false).
      { intros t Hl. destruct t; [reflexivity|]. simpl tail_is_in.
        apply Nat.eqb_neq. simpl in *. lia. }
      destruct cl as [|f cl1]; [reflexivity|].
      destruct (in_file f).
      * destruct (file_loop f _ _ cl1) as [fsize cl2].
        destruct (trailer_loop iov_max None [] cl2) as [trailer cl3].
        discriminate.
      * simpl k_tail. apply Htail. exact Hlen.
    + rewrite (data_not_memory_only h Hh Hs Hmo).
      destruct (file_loop h _ _ tl) as [fsize cl2].
      destruct (trailer_loop iov_max None [] cl2) as [trailer cl3].
      discriminate.
Qed.

Lemma skip_special_nil (cl : list hunk) :
  skip_special cl = [] -> forallb ngx_hunk_special cl = true.
Proof.
  induction cl as [|h tl IH]; simpl; [reflexivity|].
  destruct (ngx_hunk_special h); [exact IH | discriminate].
Qed.

Lemma file_region_has_data (iov_max : Z) (chain : list hunk) (file : hunk) :
  k_file (classify iov_max chain) = Some file ->
  exists h tl, skip_special chain = h :: tl.
Proof.
  intro Hf. destruct (skip_special chain) as [|h tl] eqn:E.
  - apply skip_special_nil in E.
    destruct (classify_special iov_max chain E) as [tail Hk].
    rewrite Hk in Hf. discriminate.
  - exists h, tl. reflexivity.
Qed.

Lemma nopush_step_harmless (pl : platform) (e : attempt_env) (c : connection) :
  nopush_harmless e = true ->
  exists c1 calls,
    nopush_step pl e c = (Some c1, c1, calls)
    /\ wev_ready c1 = wev_ready c /\ wev_error c1 = wev_error c
    /\ c_sent c1 = c_sent c.
Proof.
  unfold nopush_harmless, nopush_step. intro H.
  destruct (negb (ngx_freebsd_use_tcp_nopush pl =? 0) && (c_tcp_nopush c =? 0)).
  - destruct (nopush_ret e) as [err|].
    + rewrite H. simpl. exists c, [Sys_tcp_nopush]. repeat split.
    + exists (set_nopush c), [Sys_tcp_nopush]. repeat split.
  - exists c, []. repeat split.
Qed.

(** C4, as amended.  A ready connection, well-formed segments, a vector
    limit of at least one, and a first transfer call that reports "would
    block" with nothing sent: the function returns, no cursor of any segment
    has changed, and the chain returned is the input chain from its first
    non-special segment on (the walk passes the special segments in front).
    Write-readiness is cleared when there is such a segment; for a chain of
    special segments only the result is [NULL] and readiness stays set.  So
    when the first segment is not special, the head is the same and
    readiness is cleared. *)
Theorem would_block_keeps_cursors (pl : platform) (e : attempt_env)
    (script : list attempt_env) (c : connection) (chain : list hunk)
    (Hok : forallb hunk_ok chain = true)
    (Hmax : 0 < IOV_MAX pl)
    (Hready : wev_ready c = true)
    (Hkq : kqueue_event pl && wev_kq_eof c = false)
    (Hpool : pool_ok e = true)
    (Hnopush : nopush_harmless e = true)
    (Hrc : xfer_rc e = -1)
    (Herr : xfer_errno e = NGX_EAGAIN)
    (Hsent : xfer_sent e = 0) :
  exists r,
    ngx_freebsd_sendfile_chain pl (e :: script) c chain = Some r
    /\ r_hunks r = chain
    /\ r_chain r = Some (skip_special chain)
    /\ wev_ready (r_conn r)
       = match skip_special chain with [] => true | _ :: _ => false end
    /\ (forall h tl, chain = h :: tl -> ngx_hunk_special h = false ->
          r_chain r = Some chain /\ wev_ready (r_conn r) = false).
Proof.
  destruct (advance_zero chain) as [Hsnd Happ].
  unfold ngx_freebsd_sendfile_chain. rewrite Hready, Hkq. simpl.
  pose proof (classify_no_file_tail (IOV_MAX pl) chain Hok Hmax) as Htail.
  pose proof (file_region_has_data (IOV_MAX pl) chain) as Hdata.
  unfold attempt. rewrite Hpool, Hrc, Herr, Hsent. simpl.
  destruct (k_file (classify (IOV_MAX pl) chain)) as [file|].
  - destruct (nopush_step_harmless pl e c Hnopush)
      as (c1 & calls & -> & Hr1 & _ & _).
    destruct (Hdata file eq_refl) as (h & tl & Hskip).
    unfold account. destruct (advance 0 chain) as [passed rest].
    simpl in Hsnd, Happ. subst rest.
    eexists. split; [reflexivity|]. simpl.
    split; [exact Happ|]. split; [reflexivity|].
    split; [rewrite Hskip; reflexivity|].
    intros h0 tl0 -> Hs. rewrite (skip_special_head h0 tl0 Hs). split; reflexivity.
  - specialize (Htail eq_refl).
    unfold account. destruct (advance 0 chain) as [passed rest].
    simpl in Hsnd, Happ. subst rest. rewrite Htail. simpl.
    eexists. split; [reflexivity|]. simpl.
    split; [exact Happ|]. split; [reflexivity|].
    split.
    + destruct (skip_special chain); [exact Hready | reflexivity].
    + intros h0 tl0 -> Hs. rewrite (skip_special_head h0 tl0 Hs).
      split; reflexivity.
Qed.

Lemma would_block_keeps_cursors_witness :
  let pl := freebsd 1 0 in
  let e := env_err NGX_EAGAIN 0 in
  let chain := [mem_hunk 100 104; file_hunk 3 0 10] in
  (forallb hunk_ok chain = true /\ 0 < IOV_MAX pl
   /\ wev_ready ready_conn = true
   /\ kqueue_event pl && wev_kq_eof ready_conn = false
   /\ pool_ok e = true /\ nopush_harmless e = true
   /\ xfer_rc e = -1 /\ xfer_errno e = NGX_EAGAIN /\ xfer_sent e = 0)
  /\ exists r,
       ngx_freebsd_sendfile_chain pl [e] ready_conn chain = Some r
       /\ r_hunks r = chain
       /\ r_chain r = Some (skip_special chain)
       /\ wev_ready (r_conn r)
          = match skip_special chain with [] => true | _ :: _ => false end
       /\ (forall h tl, chain = h :: tl -> ngx_hunk_special h = false ->
             r_chain r = Some chain /\ wev_ready (r_conn r) = false).
Proof.
  intros pl e chain.
  split; [repeat split; reflexivity|].
  apply (would_block_keeps_cursors pl e [] ready_conn chain); reflexivity.
Defined.

(** C4, the claim as stated fails.  With a flush marker in front of a file
    segment, a first [sendfile()] that would block with nothing sent makes
    the function return the chain from the file segment on: the head is not
    the input head.  With a flush marker alone, [writev()] would block, the
    result is [NULL] and write-readiness is not cleared. *)
Lemma would_block_drops_leading_special :
  ngx_freebsd_sendfile_chain (freebsd 0 0) [env_err NGX_EAGAIN 0] ready_conn
                             [flush_hunk; file_hunk 3 0 10]
  = Some (mkResult (Some [file_hunk 3 0 10]) (clear_ready ready_conn)
                   [flush_hunk; file_hunk 3 0 10] [Sys_sendfile 3 0 10 [] []])
  /\ ngx_freebsd_sendfile_chain (freebsd 0 0) [env_err NGX_EAGAIN 0] ready_conn
                                [flush_hunk]
     = Some (mkResult (Some []) ready_conn [flush_hunk] [Sys_writev []]).
Proof. vm_compute. split; reflexivity. Qed.

(** ** A pass whose transfer call succeeds *)

Lemma attempt_success (pl : platform) (e : attempt_env) (c : connection)
    (chain : list hunk) :
  pool_ok e = true -> nopush_harmless e = true -> xfer_rc e <> -1 ->
  exists c1 calls,
    attempt pl e c chain
    = account c1 (reported_sent pl e chain) chain
              (k_tail (classify (IOV_MAX pl) chain)) false false calls
    /\ wev_ready c1 = wev_ready c /\ wev_error c1 = wev_error c
    /\ c_sent c1 = c_sent c.
Proof.
  intros Hpool Hnopush Hrc. unfold attempt, reported_sent.
  rewrite Hpool. simpl.
  destruct (Z.eqb_spec (xfer_rc e) (-1)) as [|_]; [contradiction|].
  destruct (k_file (classify (IOV_MAX pl) chain)) as [file|].
  - destruct (nopush_step_harmless pl e c Hnopush)
      as (c1 & calls & -> & H1 & H2 & H3).
    exists c1. eexists. split; [reflexivity|]. repeat split; assumption.
  - exists c. eexists. split; [reflexivity|]. repeat split.
Qed.





(** ** A reported count larger than the chain *)

Lemma advance_overshoot (cl : list hunk) :
  forallb hunk_ok cl = true ->
  forall C, chain_size cl < C -> advance C cl = (map pass cl, []).
Proof.
  induction cl as [|h tl IH]; intros Hok C HC; [reflexivity|].
  simpl in Hok. apply andb_true_iff in Hok. destruct Hok as [Hh Ht].
  pose proof (chain_size_nonneg tl Ht) as Hnn.
  simpl chain_size in HC. simpl map. unfold pass at 1.
  destruct (ngx_hunk_special h) eqn:Hs.
  - rewrite (advance_special C h tl Hs), (IH Ht C) by lia. reflexivity.
  - destruct (ok_remaining h Hh Hs) as (_ & Hr & _).
    rewrite (advance_retire C h tl Hs) by lia.
    rewrite (IH Ht (C - remaining h)) by lia. reflexivity.
Qed.

(** C6, as amended.  When a transfer call succeeds and reports more bytes
    than the chain holds, the function does not fail: the walk retires every
    segment and runs off the end of the chain, the excess is dropped, the
    function returns [NULL] (a full drain) with the fault flag and
    write-readiness as they were, and the connection's sent counter grows by
    the whole reported count. *)
Theorem overshoot_drains_silently (pl : platform) (e : attempt_env)
    (script : list attempt_env) (c : connection) (chain : list hunk)
    (Hok : forallb hunk_ok chain = true)
    (Hready : wev_ready c = true)
    (Hkq : kqueue_event pl && wev_kq_eof c = false)
    (Hpool : pool_ok e = true)
    (Hnopush : nopush_harmless e = true)
    (Hrc : xfer_rc e <> -1)
    (Hover : chain_size chain < reported_sent pl e chain) :
  exists r,
    ngx_freebsd_sendfile_chain pl (e :: script) c chain = Some r
    /\ r_chain r = Some []
    /\ r_hunks r = map pass chain
    /\ wev_error (r_conn r) = wev_error c
    /\ wev_ready (r_conn r) = wev_ready c
    /\ c_sent (r_conn r) = c_sent c + reported_sent pl e chain.
Proof.
  unfold ngx_freebsd_sendfile_chain. rewrite Hready, Hkq. simpl.
  destruct (attempt_success pl e c chain Hpool Hnopush Hrc)
    as (c1 & calls & -> & H1 & H2 & H3).
  unfold account. rewrite (advance_overshoot chain Hok _ Hover).
  rewrite tail_is_in_nil. simpl.
  eexists. split; [reflexivity|]. simpl. rewrite app_nil_r.
  split; [reflexivity|]. split; [reflexivity|].
  split; [exact H2|]. split; [congruence|].
  rewrite H3. reflexivity.
Qed.

Lemma overshoot_drains_silently_witness :
  let pl := freebsd 1 0 in
  let e := env_ok 8 0 in
  let chain := [mem_hunk 100 105] in
  (forallb hunk_ok chain = true /\ wev_ready ready_conn = true
   /\ kqueue_event pl && wev_kq_eof ready_conn = false
   /\ pool_ok e = true /\ nopush_harmless e = true /\ xfer_rc e <> -1
   /\ chain_size chain < reported_sent pl e chain)
  /\ exists r,
       ngx_freebsd_sendfile_chain pl [e] ready_conn chain = Some r
       /\ r_chain r = Some []
       /\ r_hunks r = map pass chain
       /\ wev_error (r_conn r) = wev_error ready_conn
       /\ wev_ready (r_conn r) = wev_ready ready_conn
       /\ c_sent (r_conn r) = c_sent ready_conn + reported_sent pl e chain.
Proof.
  intros pl e chain.
  assert (Hrc : xfer_rc e <> -1) by discriminate.
  assert (Hover : chain_size chain < reported_sent pl e chain) by reflexivity.
  split; [repeat split; try reflexivity; assumption|].
  apply (overshoot_drains_silently pl e [] ready_conn chain);
    try reflexivity; assumption.
Defined.

(** C6, the claim as stated fails.  Five bytes of memory and a [writev()]
    that reports eight: no error is returned and no fault is marked; the
    segment is retired, the result is [NULL], and eight bytes are added to
    the sent counter. *)
Lemma overshoot_is_not_an_error :
  chain_size [mem_hunk 100 105] = 5
  /\ ngx_freebsd_sendfile_chain (freebsd 1 0) [env_ok 8 0] ready_conn
                                [mem_hunk 100 105]
     = Some (mkResult (Some []) (mkConn true false false 0 8)
                      [mem_hunk 105 105] [Sys_writev [mkIov 100 5]]).
Proof. vm_compute. split; reflexivity. Qed.

(** ** Enabling TCP_NOPUSH *)




(** ** The header vector *)

Lemma classify_header (iov_max : Z) (chain : list hunk) :
  k_header (classify iov_max chain)
  = rev (fst (fst (header_loop iov_max None [] 0 chain))).
Proof.
  unfold classify.
  destruct (header_loop iov_max None [] 0 chain) as [[header hsize] cl].
  destruct cl as [|f cl1]; [reflexivity|].
  destruct (in_file f); [|reflexivity].
  destruct (file_loop f _ _ cl1) as [fsize cl2].
  destruct (trailer_loop iov_max None [] cl2) as [trailer cl3].
  reflexivity.
Qed.

Lemma header_loop_memory (iov_max : Z) (prev : option Z)
    (header : list iovec) (hsize : Z) (h : hunk) (tl : list hunk) :
  Z.of_nat (length header) < iov_max ->
  ngx_hunk_in_memory_only h = true ->
  header_loop iov_max prev header hsize (h :: tl)
  = header_loop iov_max (Some (last h))
      (if prev_is prev (pos h)
       then iov_extend (last h - pos h) header
       else mkIov (pos h) (to_size_t (last h - pos h)) :: header)
      (to_size_t (hsize + (last h - pos h))) tl.
Proof.
  intros Hlen Hmo. simpl.
  destruct (Z.ltb_spec (Z.of_nat (length header)) iov_max) as [_|]; [|lia].
  destruct (memory_only_flags h Hmo) as (_ & _ & ->).
  rewrite Hmo. reflexivity.
Qed.

Lemma header_loop_special_head (iov_max : Z) (prev : option Z)
    (header : list iovec) (hsize : Z) (h : hunk) (tl : list hunk) :
  Z.of_nat (length header) < iov_max ->
  ngx_hunk_special h = true ->
  header_loop iov_max prev header hsize (h :: tl)
  = header_loop iov_max prev header hsize tl.
Proof.
  intros Hlen Hs. simpl.
  destruct (Z.ltb_spec (Z.of_nat (length header)) iov_max) as [_|]; [|lia].
  rewrite Hs. reflexivity.
Qed.

Lemma header_loop_no_more (iov_max : Z) (cl : list hunk) :
  no_more_memory cl = true ->
  forall prev header hsize,
    fst (fst (header_loop iov_max prev header hsize cl)) = header.
Proof.
  unfold no_more_memory.
  induction cl as [|h tl IH]; intros Hno prev header hsize; simpl;
    [reflexivity|].
  destruct (negb (Z.of_nat (length header) <? iov_max)); [reflexivity|].
  simpl in Hno. destruct (ngx_hunk_special h).
  - apply IH. exact Hno.
  - rewrite Hno. reflexivity.
Qed.


(** C8, as amended.  With a vector limit of at least two: when the first
    three segments of a chain are memory segments with contiguous byte ranges,
    the header loop merges them into one entry, which starts at the first
    segment and whose length is the sum of the three lengths, and goes on
    with the rest of the chain from that entry; so the header vector is
    exactly that one entry when no further memory segment follows (the chain
    ends there, or its next non-special segment is not memory-only).  For a
    chain of two memory segments that are not contiguous the header vector
    has exactly two entries, one per segment. *)
Theorem header_coalesces_contiguous (iov_max : Z) (m1 m2 m3 : hunk)
    (rest : list hunk)
    (Hmax : 2 <= iov_max)
    (Hm1 : ngx_hunk_in_memory_only m1 = true)
    (Hm2 : ngx_hunk_in_memory_only m2 = true)
    (Hm3 : ngx_hunk_in_memory_only m3 = true)
    (H12 : contiguous m1 m2 = true)
    (H23 : contiguous m2 m3 = true)
    (Hr1 : pos m1 <= last m1) (Hr2 : pos m2 <= last m2)
    (Hr3 : pos m3 <= last m3) (Hfit : last m3 - pos m1 < 2 ^ 64) :
  let e := mkIov (pos m1)
             ((last m1 - pos m1) + (last m2 - pos m2) + (last m3 - pos m3)) in
  (exists hsize,
     header_loop iov_max None [] 0 (m1 :: m2 :: m3 :: rest)
     = header_loop iov_max (Some (last m3)) [e] hsize rest)
  /\ (no_more_memory rest = true ->
      k_header (classify iov_max (m1 :: m2 :: m3 :: rest)) = [e])
  /\ (forall a b,
        ngx_hunk_in_memory_only a = true -> ngx_hunk_in_memory_only b = true ->
        contiguous a b = false ->
        k_header (classify iov_max [a; b])
        = [mkIov (pos a) (to_size_t (last a - pos a));
           mkIov (pos b) (to_size_t (last b - pos b))]).
Proof.
  intro e.
  assert (Hloop : exists hsize,
     header_loop iov_max None [] 0 (m1 :: m2 :: m3 :: rest)
     = header_loop iov_max (Some (last m3)) [e] hsize rest).
  { unfold contiguous in H12, H23.
    rewrite (header_loop_memory iov_max None [] 0 m1) by (simpl; lia || assumption).
    simpl prev_is. cbv iota.
    rewrite (header_loop_memory iov_max _ _ _ m2) by (simpl; lia || assumption).
    simpl prev_is. rewrite H12. simpl iov_extend.
    rewrite (header_loop_memory iov_max _ _ _ m3) by (simpl; lia || assumption).
    simpl prev_is. rewrite H23. simpl iov_extend.
    apply Z.eqb_eq in H12, H23.
    rewrite (to_size_t_small (last m1 - pos m1)) by lia.
    rewrite (to_size_t_small (last m1 - pos m1 + (last m2 - pos m2))) by lia.
    rewrite (to_size_t_small (last m1 - pos m1 + (last m2 - pos m2)
                              + (last m3 - pos m3))) by lia.
    eexists. reflexivity. }
  split; [exact Hloop|]. split.
  - intro Hno. destruct Hloop as [hsize Hloop].
    rewrite classify_header, Hloop, header_loop_no_more by exact Hno.
    reflexivity.
  - intros a b Ha Hb Hab. unfold contiguous in Hab.
    rewrite classify_header.
    rewrite (header_loop_memory iov_max None [] 0 a) by (simpl; lia || assumption).
    simpl prev_is. cbv iota.
    rewrite (header_loop_memory iov_max _ _ _ b) by (simpl; lia || assumption).
    simpl prev_is. rewrite Hab. reflexivity.
Qed.

Lemma header_coalesces_contiguous_witness :
  let m1 := mem_hunk 100 102 in
  let m2 := mem_hunk 102 104 in
  let m3 := mem_hunk 104 106 in
  let rest := [flush_hunk; file_hunk 3 0 10] in
  (2 <= 1024
   /\ ngx_hunk_in_memory_only m1 = true /\ ngx_hunk_in_memory_only m2 = true
   /\ ngx_hunk_in_memory_only m3 = true
   /\ contiguous m1 m2 = true /\ contiguous m2 m3 = true
   /\ pos m1 <= last m1 /\ pos m2 <= last m2 /\ pos m3 <= last m3
   /\ last m3 - pos m1 < 2 ^ 64
   /\ no_more_memory rest = true)
  /\ k_header (classify 1024 (m1 :: m2 :: m3 :: rest)) = [mkIov 100 6]
  /\ k_header (classify 1024 [mem_hunk 100 102; mem_hunk 200 203])
     = [mkIov 100 2; mkIov 200 3].
Proof.
  intros m1 m2 m3 rest.
  assert (Hmax : 2 <= 1024) by lia.
  assert (Hr1 : pos m1 <= last m1) by (simpl; lia).
  assert (Hr2 : pos m2 <= last m2) by (simpl; lia).
  assert (Hr3 : pos m3 <= last m3) by (simpl; lia).
  assert (Hfit : last m3 - pos m1 < 2 ^ 64) by (simpl; lia).
  destruct (header_coalesces_contiguous 1024 m1 m2 m3 rest Hmax
              eq_refl eq_refl eq_refl eq_refl eq_refl Hr1 Hr2 Hr3 Hfit)
    as (_ & Hone & Htwo).
  split; [repeat split; try reflexivity; assumption|].
  split; [exact (Hone eq_refl)|].
  exact (Htwo (mem_hunk 100 102) (mem_hunk 200 203) eq_refl eq_refl eq_refl).
Defined.

(** C8, the claim as stated fails.  Three contiguous memory segments of two
    bytes each followed by a fourth memory segment elsewhere: the header
    vector has two entries.  Followed by a fourth contiguous one: the single
    entry is eight bytes long, not six. *)
Lemma header_three_contiguous_then_more :
  k_header (classify 1024 [mem_hunk 100 102; mem_hunk 102 104;
                           mem_hunk 104 106; mem_hunk 200 203])
  = [mkIov 100 6; mkIov 200 3]
  /\ k_header (classify 1024 [mem_hunk 100 102; mem_hunk 102 104;
                              mem_hunk 104 106; mem_hunk 106 108])
     = [mkIov 100 8].
Proof. vm_compute. split; reflexivity. Qed.

(** ** The file region *)

Lemma file_loop_length (file : hunk) (cl : list hunk) :
  forall fsize fprev,
    (length (snd (file_loop file fsize fprev cl)) <= length cl)%nat.
Proof.
  induction cl as [|h tl IH]; intros fsize fprev; simpl; [lia|].
  destruct (negb (in_file h)); simpl; [lia|].
  destruct (negb (fd file =? fd h) || negb (fprev =? file_pos h)); simpl;
    [lia|].
  match goal with |- (length (snd (file_loop _ ?s ?p tl)) <= _)%nat =>
    specialize (IH s p) end.
  lia.
Qed.

Lemma trailer_loop_length (iov_max : Z) (cl : list hunk) :
  forall prev trailer,
    (length (snd (trailer_loop iov_max prev trailer cl)) <= length cl)%nat.
Proof.
  induction cl as [|h tl IH]; intros prev trailer; simpl; [lia|].
  destruct (negb (Z.of_nat (length trailer) <? iov_max)); simpl; [lia|].
  destruct (ngx_hunk_special h).
  - specialize (IH prev trailer). lia.
  - destruct (negb (ngx_hunk_in_memory_only h)); simpl; [lia|].
    match goal with |- (length (snd (trailer_loop _ ?p ?a tl)) <= _)%nat =>
      specialize (IH p a) end.
    lia.
Qed.

Lemma file_loop_stops (file : hunk) (fsize fprev : Z) (cl : list hunk) :
  file_run_stops file fprev cl = true ->
  file_loop file fsize fprev cl = (fsize, cl).
Proof.
  destruct cl as [|h tl]; simpl; [reflexivity|]. intro H.
  destruct (negb (in_file h)); [reflexivity|]. simpl in H. rewrite H.
  reflexivity.
Qed.

Lemma trailer_loop_at_file (iov_max : Z) (prev : option Z)
    (trailer : list iovec) (f : hunk) (tl : list hunk) :
  in_file f = true ->
  trailer_loop iov_max prev trailer (f :: tl) = (trailer, f :: tl).
Proof.
  intro Hf. simpl.
  destruct (negb (Z.of_nat (length trailer) <? iov_max)); [reflexivity|].
  destruct (ngx_hunk_special f) eqn:Hs.
  - apply special_no_data in Hs. destruct Hs as [_ Hs]. congruence.
  - destruct (ngx_hunk_in_memory_only f) eqn:Hmo; [|reflexivity].
    apply memory_only_flags in Hmo. destruct Hmo as (_ & Hmo & _). congruence.
Qed.

Lemma to_size_t_add (a b : Z) :
  to_size_t (to_size_t a + to_size_t b) = to_size_t (a + b).
Proof. unfold to_size_t. symmetry. apply Zplus_mod. Qed.

(** C9, as amended.  The header loop stops at a file segment [f1] that is
    directly followed by a file segment [f2]; [f1] starts the file region.
    [f2] is taken into the region (the tail lies beyond it) if and only if
    it is on the same file and starts at the offset where [f1] ends.  If so,
    and the run of file segments ends with [f2], the length of the region is
    the sum of the two ranges (in [size_t] arithmetic).  If not, the region
    is [f1] alone, the trailer vector is empty and the tail is the chain from
    [f2] on. *)
Theorem file_region_coalescing (iov_max : Z) (chain : list hunk)
    (header : list iovec) (hsize : Z) (f1 f2 : hunk) (rest : list hunk)
    (Hstop : header_loop iov_max None [] 0 chain
             = (header, hsize, f1 :: f2 :: rest))
    (Hf1 : in_file f1 = true) (Hf2 : in_file f2 = true) :
  let k := classify iov_max chain in
  let joined := (fd f1 =? fd f2) && (file_last f1 =? file_pos f2) in
  k_file k = Some f1
  /\ ((length (k_tail k) <= length rest)%nat <-> joined = true)
  /\ (joined = true -> file_run_stops f1 (file_last f2) rest = true ->
      k_fsize k = to_size_t ((file_last f1 - file_pos f1)
                             + (file_last f2 - file_pos f2)))
  /\ (joined = false ->
      k_fsize k = to_size_t (file_last f1 - file_pos f1)
      /\ k_trailer k = [] /\ k_tail k = f2 :: rest).
Proof.
  intros k joined.
  assert (Hk : k = classify iov_max chain) by reflexivity.
  unfold classify in Hk. rewrite Hstop, Hf1 in Hk.
  simpl file_loop in Hk. rewrite Hf2 in Hk. simpl negb in Hk. cbv iota in Hk.
  assert (Hj : negb (fd f1 =? fd f2) || negb (file_last f1 =? file_pos f2)
               = negb joined).
  { unfold joined. rewrite negb_andb. reflexivity. }
  rewrite Hj in Hk. destruct joined eqn:Ej; simpl negb in Hk; cbv iota in Hk.
  - pose proof (file_loop_length f1 rest
        (to_size_t (to_size_t (file_last f1 - file_pos f1)
                    + to_size_t (file_last f2 - file_pos f2)))
        (file_last f2)) as Hlen.
    pose proof (file_loop_stops f1
        (to_size_t (to_size_t (file_last f1 - file_pos f1)
                    + to_size_t (file_last f2 - file_pos f2)))
        (file_last f2) rest) as Hst.
    destruct (file_loop f1 _ (file_last f2) rest) as [fsize cl2].
    pose proof (trailer_loop_length iov_max cl2 None []) as Hlen'.
    destruct (trailer_loop iov_max None [] cl2) as [trailer cl3].
    simpl in Hlen, Hlen'. rewrite Hk. simpl.
    split; [reflexivity|]. split; [split; [reflexivity | lia]|].
    split; [|discriminate].
    intros _ Hrun. specialize (Hst Hrun). injection Hst as -> _.
    apply to_size_t_add.
  - rewrite (trailer_loop_at_file iov_max None [] f2 rest Hf2) in Hk.
    rewrite Hk. simpl.
    split; [reflexivity|]. split; [split; [lia | discriminate]|].
    split; [discriminate|]. intros _. repeat split.
Qed.

Lemma file_region_coalescing_witness :
  let chain := [mem_hunk 100 104; file_hunk 3 0 10; file_hunk 3 10 25] in
  let f1 := file_hunk 3 0 10 in
  let f2 := file_hunk 3 10 25 in
  (header_loop 1024 None [] 0 chain = ([mkIov 100 4], 4, [f1; f2])
   /\ in_file f1 = true /\ in_file f2 = true
   /\ (fd f1 =? fd f2) && (file_last f1 =? file_pos f2) = true
   /\ file_run_stops f1 (file_last f2) [] = true)
  /\ k_file (classify 1024 chain) = Some f1
  /\ k_fsize (classify 1024 chain) = 25.
Proof.
  intros chain f1 f2.
  assert (Hstop : header_loop 1024 None [] 0 chain
                  = ([mkIov 100 4], 4, [f1; f2])) by reflexivity.
  destruct (file_region_coalescing 1024 chain [mkIov 100 4] 4 f1 f2 []
              Hstop eq_refl eq_refl) as (Hfile & _ & Hsum & _).
  split; [repeat split; reflexivity|].
  split; [exact Hfile|].
  exact (Hsum eq_refl eq_refl).
Defined.

(** C9, the claim as stated fails.  A file segment on file 1, then two
    segments on file 2 with contiguous offsets: the two are consecutive file
    segments on the same file with contiguous offsets, but the classifier's
    region is the first segment alone (5 bytes) and both are left for the
    tail.  And when a third contiguous segment follows two coalesced ones, the
    length of the region is the sum of all three ranges. *)
Lemma file_pair_behind_other_file_not_coalesced :
  let a := file_hunk 1 0 5 in
  let b1 := file_hunk 2 0 5 in
  let b2 := file_hunk 2 5 10 in
  let k := classify 1024 [a; b1; b2] in
  (k_file k = Some a /\ k_fsize k = 5 /\ k_tail k = [b1; b2])
  /\ k_fsize (classify 1024 [b1; b2; file_hunk 2 10 20]) = 20.
Proof. vm_compute. repeat split; reflexivity. Qed.

(** ** Special segments inside a run of memory segments *)






Lemma iov_extend_length (n : Z) (a : list iovec) :
  length (iov_extend n a) = length a.
Proof. destruct a; reflexivity. Qed.




(** * Further properties of the function *)

(** ** The walk: what it leaves alone and what it keeps *)

Lemma flags_of_type (a b : hunk) :
  type a = type b ->
  in_memory a = in_memory b /\ in_file a = in_file b
  /\ ngx_hunk_special a = ngx_hunk_special b
  /\ ngx_hunk_in_memory_only a = ngx_hunk_in_memory_only b.
Proof.
  unfold in_memory, in_file, ngx_hunk_special, ngx_hunk_in_memory_only.
  intros ->. repeat split.
Qed.

Lemma same_ends_refl (h : hunk) : same_ends h h.
Proof. repeat split. Qed.

Lemma same_ends_retire (h : hunk) : same_ends h (retire h).
Proof.
  unfold same_ends, retire.
  destruct (in_memory h); simpl;
    match goal with |- context [in_file ?x] => destruct (in_file x) end;
    simpl; repeat split.
Qed.

Lemma same_ends_shift (n : Z) (h : hunk) : same_ends h (shift n h).
Proof.
  unfold same_ends, shift.
  destruct (in_memory h); simpl;
    match goal with |- context [in_file ?x] => destruct (in_file x) end;
    simpl; repeat split.
Qed.

Lemma Forall2_same_ends_refl (l : list hunk) : Forall2 same_ends l l.
Proof. induction l; constructor; auto using same_ends_refl. Qed.

Lemma advance_frame (cl : list hunk) :
  forall sent,
    Forall2 same_ends cl (fst (advance sent cl) ++ snd (advance sent cl))
    /\ skipn (S (length (fst (advance sent cl)))) cl
       = tl (snd (advance sent cl)).
Proof.
  induction cl as [|h t IH]; intro sent; simpl.
  - split; [constructor | reflexivity].
  - destruct (ngx_hunk_special h).
    + destruct (IH sent) as [IH1 IH2].
      destruct (advance sent t) as [p r]. simpl in *.
      split; [constructor; [apply same_ends_refl | exact IH1] | exact IH2].
    + destruct (sent =? 0).
      * simpl. split; [apply Forall2_same_ends_refl | reflexivity].
      * destruct (sent >=? to_ssize_t (ngx_hunk_size h)).
        -- destruct (IH (sent - to_ssize_t (ngx_hunk_size h))) as [IH1 IH2].
           destruct (advance (sent - to_ssize_t (ngx_hunk_size h)) t) as [p r].
           simpl in *.
           split; [constructor; [apply same_ends_retire | exact IH1]
                  | exact IH2].
        -- simpl. split; [|reflexivity].
           constructor; [apply same_ends_shift | apply Forall2_same_ends_refl].
Qed.

Lemma hunk_ok_retire (h : hunk) : hunk_ok h = true -> hunk_ok (retire h) = true.
Proof.
  intro Hok. pose proof (retire_retired h) as [Rm Rf].
  destruct (flags_of_type (retire h) h (type_retire h)) as (Em & Ef & Es & _).
  unfold hunk_ok in *. rewrite Em, Ef, Es.
  destruct (ngx_hunk_special h); [reflexivity|]. simpl in *.
  apply andb_true_iff in Hok. destruct Hok as [Hk _]. rewrite Hk. simpl.
  rewrite Em in Rm. rewrite Ef in Rf.
  destruct (in_memory h).
  - rewrite (Rm eq_refl), Z.sub_diag, Z.leb_refl. reflexivity.
  - simpl in Hk. rewrite (Rf Hk), Z.sub_diag, Z.leb_refl. reflexivity.
Qed.

Lemma start_cursor_retire (h : hunk) :
  hunk_ok h = true -> ngx_hunk_special h = false ->
  start_cursor h <= start_cursor (retire h).
Proof.
  intros Hok Hs. destruct (ok_remaining h Hok Hs) as (Hr & Hb & Hk).
  pose proof (retire_retired h) as [Rm Rf].
  destruct (same_ends_retire h) as (_ & El & Efl & _).
  unfold start_cursor. rewrite in_memory_retire.
  rewrite in_memory_retire in Rm. rewrite in_file_retire in Rf.
  destruct (in_memory h).
  - rewrite (Rm eq_refl), <- El. lia.
  - rewrite (Rf (Hk eq_refl)), <- Efl. lia.
Qed.

Lemma shift_cursor (n : Z) (h : hunk) :
  hunk_ok h = true -> ngx_hunk_special h = false ->
  start_cursor (shift n h) = start_cursor h + n.
Proof.
  intros Hok Hs. destruct (ok_remaining h Hok Hs) as (_ & _ & Hk).
  unfold start_cursor. rewrite in_memory_shift. unfold shift.
  destruct (in_memory h) eqn:Hm.
  - change (in_file (mkHunk (type h) (pos h + n) (last h) (file_pos h)
                            (file_last h) (fd h))) with (in_file h).
    destruct (in_file h); reflexivity.
  - rewrite (Hk eq_refl). reflexivity.
Qed.

Lemma hunk_ok_shift (n : Z) (h : hunk) :
  hunk_ok h = true -> ngx_hunk_special h = false ->
  0 <= n <= remaining h -> hunk_ok (shift n h) = true.
Proof.
  intros Hok Hs Hn.
  destruct (ok_remaining h Hok Hs) as (Hr & Hb & Hk).
  pose proof (shift_cursor n h Hok Hs) as Hc.
  destruct (same_ends_shift n h) as (Et & El & Efl & _).
  destruct (flags_of_type (shift n h) h (eq_sym Et)) as (Em & Ef & Es & _).
  unfold start_cursor in Hc. rewrite Em in Hc.
  unfold hunk_ok. rewrite Em, Ef, Es, Hs. simpl.
  rewrite Hr in Hn, Hb.
  destruct (in_memory h); simpl.
  - rewrite Hc, <- El.
    apply andb_true_iff. split; [apply Z.leb_le | apply Z.ltb_lt]; lia.
  - rewrite (Hk eq_refl). simpl. rewrite Hc, <- Efl.
    apply andb_true_iff. split; [apply Z.leb_le | apply Z.ltb_lt]; lia.
Qed.

Lemma advance_keeps_ok (cl : list hunk) :
  forallb hunk_ok cl = true ->
  forall sent, 0 <= sent ->
    forallb hunk_ok (fst (advance sent cl) ++ snd (advance sent cl)) = true
    /\ Forall2 (fun a b => start_cursor a <= start_cursor b)
               cl (fst (advance sent cl) ++ snd (advance sent cl)).
Proof.
  assert (Hrefl : forall l : list hunk,
            Forall2 (fun a b => start_cursor a <= start_cursor b) l l).
  { induction l; constructor; auto; lia. }
  induction cl as [|h t IH]; intros Hok sent Hsent.
  - simpl. split; [reflexivity | constructor].
  - simpl in Hok. apply andb_true_iff in Hok. destruct Hok as [Hh Ht].
    destruct (ngx_hunk_special h) eqn:Hs.
    + rewrite (advance_special sent h t Hs). simpl.
      destruct (IH Ht sent Hsent) as [IH1 IH2]. rewrite Hh, IH1.
      split; [reflexivity | constructor; [lia | exact IH2]].
    + destruct (ok_remaining h Hh Hs) as (_ & Hb & _).
      destruct (Z.eq_dec sent 0) as [->|Hn].
      * rewrite (advance_stop h t Hs). simpl. rewrite Hh, Ht.
        split; [reflexivity | apply Hrefl].
      * destruct (Z_le_gt_dec (remaining h) sent) as [Hle|Hgt].
        -- rewrite (advance_retire sent h t Hs Hn Hle). simpl.
           destruct (IH Ht (sent - remaining h) ltac:(lia)) as [IH1 IH2].
           rewrite (hunk_ok_retire h Hh), IH1.
           split; [reflexivity|].
           constructor; [apply start_cursor_retire; assumption | exact IH2].
        -- rewrite (advance_shift sent h t Hs Hn ltac:(lia)). simpl.
           rewrite (hunk_ok_shift sent h Hh Hs ltac:(lia)), Ht.
           split; [reflexivity|].
           constructor; [rewrite shift_cursor by assumption; lia | apply Hrefl].
Qed.

(** ** What one pass can do *)

Lemma nopush_step_inv (pl : platform) (e : attempt_env) (c : connection) :
  forall o c1 calls, nopush_step pl e c = (o, c1, calls) ->
    wev_ready c1 = wev_ready c /\ wev_kq_eof c1 = wev_kq_eof c
    /\ c_sent c1 = c_sent c /\ nopush_kept_or_set pl c c1
    /\ match o with
       | Some c2 => c2 = c1 /\ wev_error c1 = wev_error c
       | None => wev_error c1 = true
       end
    /\ (calls = [] \/ calls = [Sys_tcp_nopush])
    /\ (calls <> [] ->
        ngx_freebsd_use_tcp_nopush pl <> 0 /\ c_tcp_nopush c = 0).
Proof.
  intros o c1 calls. unfold nopush_step, nopush_kept_or_set.
  destruct (Z.eqb_spec (ngx_freebsd_use_tcp_nopush pl) 0) as [Hu|Hu]; simpl.
  - intro H. injection H as <- <- <-. repeat split; auto. congruence.
  - destruct (Z.eqb_spec (c_tcp_nopush c) 0) as [Hc|Hc].
    + destruct (nopush_ret e) as [err|].
      * destruct (negb (err =? NGX_EINTR)); intro H; injection H as <- <- <-;
          simpl; repeat split; auto.
      * intro H. injection H as <- <- <-. simpl. repeat split; auto.
    + intro H. injection H as <- <- <-. repeat split; auto. congruence.
Qed.

Lemma account_inv (c : connection) (sent : Z) (cl tail : list hunk)
    (eintr eagain : bool) (calls : list syscall) :
  account c sent cl tail eintr eagain calls
  = Advanced (add_sent sent c) (fst (advance sent cl)) (snd (advance sent cl))
             tail eintr eagain calls.
Proof. unfold account. destruct (advance sent cl). reflexivity. Qed.

Lemma attempt_advanced_inv (pl : platform) (e : attempt_env) (c : connection)
    (cl : list hunk) :
  forall c1 passed rest tail eintr eagain calls,
    attempt pl e c cl = Advanced c1 passed rest tail eintr eagain calls ->
    let s := reported_sent pl e cl in
    passed = fst (advance s cl) /\ rest = snd (advance s cl)
    /\ tail = k_tail (classify (IOV_MAX pl) cl)
    /\ wev_ready c1 = wev_ready c /\ wev_kq_eof c1 = wev_kq_eof c
    /\ wev_error c1 = wev_error c /\ c_sent c1 = c_sent c + s
    /\ nopush_kept_or_set pl c c1
    /\ pool_ok e = true
    /\ eintr = (xfer_rc e =? -1) && (xfer_errno e =? NGX_EINTR)
    /\ (eagain = true ->
        k_file (classify (IOV_MAX pl) cl) <> None /\ eintr = false).
Proof.
  intros c1 passed rest tail eintr eagain calls. unfold attempt, reported_sent.
  destruct (pool_ok e); simpl; [|discriminate].
  destruct (k_file (classify (IOV_MAX pl) cl)) as [file|].
  - destruct (nopush_step pl e c) as [[o c2] calls0] eqn:En.
    destruct (nopush_step_inv pl e c o c2 calls0 En)
      as (H1 & H2 & H3 & H4 & H5 & _).
    destruct o as [c3|]; [|discriminate]. destruct H5 as [-> H5].
    rewrite !account_inv.
    destruct (xfer_rc e =? -1); simpl.
    + destruct (xfer_errno e =? NGX_EAGAIN) eqn:Ea;
        destruct (xfer_errno e =? NGX_EINTR) eqn:Ei; simpl;
        try discriminate;
        intro H; injection H as <- <- <- <- <- <- <-; simpl;
        rewrite ?H3; repeat split; auto; try discriminate.
    + intro H; injection H as <- <- <- <- <- <- <-; simpl.
      rewrite H3. repeat split; auto; discriminate.
  - rewrite !account_inv.
    destruct (xfer_rc e =? -1) eqn:Erc; simpl.
    + apply Z.eqb_eq in Erc. rewrite Erc. simpl.
      destruct (xfer_errno e =? NGX_EAGAIN) eqn:Ea;
        destruct (xfer_errno e =? NGX_EINTR) eqn:Ei; simpl;
        try discriminate;
        intro H; injection H as <- <- <- <- <- <- <-; simpl;
        repeat split; auto; try discriminate; left; reflexivity.
    + intro H; injection H as <- <- <- <- <- <- <-; simpl.
      repeat split; auto; try discriminate. left; reflexivity.
Qed.

Lemma attempt_fatal_inv (pl : platform) (e : attempt_env) (c : connection)
    (cl : list hunk) :
  forall c1 calls,
    attempt pl e c cl = Fatal c1 calls ->
    wev_ready c1 = wev_ready c /\ wev_kq_eof c1 = wev_kq_eof c
    /\ c_sent c1 = c_sent c /\ nopush_kept_or_set pl c c1
    /\ ((pool_ok e = false /\ c1 = c /\ calls = [])
        \/ (pool_ok e = true /\ wev_error c1 = true)).
Proof.
  intros c1 calls. unfold attempt.
  destruct (pool_ok e); simpl.
  2:{ intro H. injection H as <- <-. repeat split; auto.
      left; reflexivity. }
  destruct (k_file (classify (IOV_MAX pl) cl)) as [file|].
  - destruct (nopush_step pl e c) as [[o c2] calls0] eqn:En.
    destruct (nopush_step_inv pl e c o c2 calls0 En)
      as (H1 & H2 & H3 & H4 & H5 & _).
    destruct o as [c3|].
    + destruct H5 as [-> H5]. rewrite !account_inv.
      destruct (xfer_rc e =? -1); [|discriminate].
      destruct ((xfer_errno e =? NGX_EAGAIN) || (xfer_errno e =? NGX_EINTR));
        [discriminate|].
      intro H. injection H as <- <-. simpl. repeat split; auto.
    + intro H. injection H as <- <-. repeat split; auto.
  - rewrite !account_inv.
    destruct (xfer_rc e =? -1); [|discriminate].
    destruct ((xfer_errno e =? NGX_EAGAIN) || (xfer_errno e =? NGX_EINTR));
      [discriminate|].
    intro H. injection H as <- <-. simpl. repeat split; auto.
    left; reflexivity.
Qed.

(** ** The loop *)

Lemma send_loop_acc (pl : platform) (script : list attempt_env) :
  forall c before calls cl,
    send_loop pl script c before calls cl
    = option_map (extend_result before calls)
                 (send_loop pl script c [] [] cl).
Proof.
  induction script as [|e script IH]; intros c before calls cl; simpl;
    [reflexivity|].
  destruct (attempt pl e c cl)
    as [c1 calls1|c1 passed rest tail eintr eagain calls1].
  - reflexivity.
  - destruct eagain; [reflexivity|].
    destruct (tail_is_in tail rest || eintr); [|reflexivity].
    rewrite (IH c1 (before ++ passed) (calls ++ calls1) rest).
    rewrite (IH c1 passed calls1 rest).
    destruct (send_loop pl script c1 [] [] rest) as [r|]; [|reflexivity].
    simpl. unfold extend_result. simpl. rewrite !app_assoc. reflexivity.
Qed.

Lemma send_loop_cases (pl : platform) (e : attempt_env)
    (script : list attempt_env) (c : connection) (cl : list hunk) (r : result) :
  send_loop pl (e :: script) c [] [] cl = Some r ->
  (exists c1 calls1,
      attempt pl e c cl = Fatal c1 calls1
      /\ r = mkResult None c1 cl calls1)
  \/ (exists c1 passed rest tail eintr eagain calls1,
        attempt pl e c cl = Advanced c1 passed rest tail eintr eagain calls1
        /\ ((eagain = true
             /\ r = mkResult (Some rest) (clear_ready c1) (passed ++ rest)
                             calls1)
            \/ (eagain = false /\ tail_is_in tail rest || eintr = true
                /\ exists r', send_loop pl script c1 [] [] rest = Some r'
                              /\ r = extend_result passed calls1 r')
            \/ (eagain = false /\ tail_is_in tail rest || eintr = false
                /\ r = mkResult (Some rest)
                                (match rest with
                                 | [] => c1
                                 | _ :: _ => clear_ready c1
                                 end) (passed ++ rest) calls1))).
Proof.
  simpl. intro H.
  destruct (attempt pl e c cl)
    as [c1 calls1|c1 passed rest tail eintr eagain calls1].
  - left. exists c1, calls1. injection H as <-. split; reflexivity.
  - right. exists c1, passed, rest, tail, eintr, eagain, calls1.
    split; [reflexivity|].
    destruct eagain.
    + left. injection H as <-. split; reflexivity.
    + right. destruct (tail_is_in tail rest || eintr).
      * left. split; [reflexivity|]. split; [reflexivity|].
        rewrite send_loop_acc in H.
        destruct (send_loop pl script c1 [] [] rest) as [r'|];
          [|discriminate].
        exists r'. injection H as <-. split; reflexivity.
      * right. injection H as <-. repeat split.
Qed.

Lemma nopush_kept_or_set_trans (pl : platform) (a b c : connection) :
  nopush_kept_or_set pl a b -> nopush_kept_or_set pl b c ->
  nopush_kept_or_set pl a c.
Proof.
  unfold nopush_kept_or_set.
  intros [H1|(Hu & H1 & H2)] [H3|(Hu' & H3 & H4)].
  - left. congruence.
  - right. repeat split; congruence.
  - right. repeat split; congruence.
  - rewrite H2 in H3. discriminate.
Qed.

Lemma send_loop_conn (pl : platform) (script : list attempt_env) :
  forall c cl r,
    send_loop pl script c [] [] cl = Some r ->
    wev_kq_eof (r_conn r) = wev_kq_eof c
    /\ (wev_ready (r_conn r) = true -> wev_ready c = true)
    /\ nopush_kept_or_set pl c (r_conn r)
    /\ (forall out, r_chain r = Some out ->
          wev_error (r_conn r) = wev_error c)
    /\ (r_chain r = None ->
          wev_error (r_conn r) = true
          \/ exists e, In e script /\ pool_ok e = false)
    /\ (wev_error c = true -> wev_error (r_conn r) = true).
Proof.
  induction script as [|e script IH]; intros c cl r Hr; [discriminate|].
  destruct (send_loop_cases pl e script c cl r Hr)
    as [(c1 & calls1 & Ha & ->)
       |(c1 & passed & rest & tail & eintr & eagain & calls1 & Ha & Hcase)].
  - destruct (attempt_fatal_inv pl e c cl c1 calls1 Ha)
      as (H1 & H2 & H3 & H4 & H5). simpl.
    split; [exact H2|]. split; [congruence|]. split; [exact H4|].
    split; [discriminate|]. split.
    + intros _. destruct H5 as [(Hp & _ & _)|(_ & He)].
      * right. exists e. split; [left; reflexivity | exact Hp].
      * left. exact He.
    + intro Hc. destruct H5 as [(_ & -> & _)|(_ & He)]; assumption.
  - destruct (attempt_advanced_inv pl e c cl _ _ _ _ _ _ _ Ha)
      as (_ & _ & _ & H1 & H2 & H3 & _ & H4 & _).
    destruct Hcase as [(_ & ->)|[(_ & _ & r' & Hr' & ->)|(_ & _ & ->)]].
    + simpl. split; [exact H2|]. split; [discriminate|].
      split; [exact H4|]. split; [intros; exact H3|].
      split; [discriminate | congruence].
    + destruct (IH c1 rest r' Hr') as (I1 & I2 & I3 & I4 & I5 & I6). simpl.
      split; [congruence|]. split; [intro H; rewrite <- H1; auto|].
      split; [exact (nopush_kept_or_set_trans pl c c1 _ H4 I3)|].
      split; [intros out Ho; rewrite (I4 out Ho); exact H3|].
      split; [|intro Hc; apply I6; congruence].
      intro Hn. destruct (I5 Hn) as [He|(e' & Hin & Hp)]; [left; exact He|].
      right. exists e'. split; [right; exact Hin | exact Hp].
    + simpl. destruct rest; simpl;
        (split; [exact H2|]); (split; [congruence || discriminate|]);
        (split; [exact H4|]); (split; [intros; exact H3|]);
        (split; [discriminate | congruence]).
Qed.

Lemma Forall2_same_ends_trans (a b c : list hunk) :
  Forall2 same_ends a b -> Forall2 same_ends b c -> Forall2 same_ends a c.
Proof.
  intro H. revert c. induction H as [|x y a b Hxy _ IH]; intros c Hc.
  - inversion Hc. constructor.
  - inversion Hc as [|y' z b' c' Hyz Hbc]; subst. constructor.
    + unfold same_ends in *. intuition congruence.
    + apply IH. exact Hbc.
Qed.

Lemma skipn_tl (n : nat) (l : list hunk) : skipn n (tl l) = skipn (S n) l.
Proof. destruct l; [destruct n; reflexivity | reflexivity]. Qed.

Lemma send_loop_hunks (pl : platform) (script : list attempt_env) :
  forall c cl r,
    send_loop pl script c [] [] cl = Some r ->
    Forall2 same_ends cl (r_hunks r)
    /\ (forall out, r_chain r = Some out ->
          exists gone, r_hunks r = gone ++ out
                       /\ skipn (S (length gone)) cl = tl out)
    /\ (r_chain r = None -> exists gone rest, r_hunks r = gone ++ rest).
Proof.
  induction script as [|e script IH]; intros c cl r Hr; [discriminate|].
  destruct (send_loop_cases pl e script c cl r Hr)
    as [(c1 & calls1 & Ha & ->)
       |(c1 & passed & rest & tail & eintr & eagain & calls1 & Ha & Hcase)].
  - simpl. split; [apply Forall2_same_ends_refl|].
    split; [discriminate|]. intros _. exists [], cl. reflexivity.
  - destruct (attempt_advanced_inv pl e c cl _ _ _ _ _ _ _ Ha)
      as (Hp & Hrest & _).
    destruct (advance_frame cl (reported_sent pl e cl)) as [Hf Hs].
    rewrite <- Hp, <- Hrest in Hf, Hs.
    assert (Hstop : forall c2,
      Forall2 same_ends cl (r_hunks (mkResult (Some rest) c2 (passed ++ rest)
                                              calls1))
      /\ (forall out, Some rest = Some out ->
            exists gone, passed ++ rest = gone ++ out
                         /\ skipn (S (length gone)) cl = tl out)
      /\ (Some rest = None -> exists gone rest0 : list hunk,
            passed ++ rest = gone ++ rest0)).
    { intro c2. split; [exact Hf|]. split; [|discriminate].
      intros out Ho. injection Ho as <-. exists passed.
      split; [reflexivity | exact Hs]. }
    destruct Hcase as [(_ & ->)|[(_ & _ & r' & Hr' & ->)|(_ & _ & ->)]].
    + apply Hstop.
    + destruct (IH c1 rest r' Hr') as (I1 & I2 & I3). simpl.
      split; [|split].
      * apply Forall2_app_inv_r in Hf.
        destruct Hf as (cl1 & cl2 & Hf1 & Hf2 & ->).
        apply Forall2_app; [exact Hf1|].
        apply (Forall2_same_ends_trans cl2 rest _ Hf2 I1).
      * intros out Ho. destruct (I2 out Ho) as (gone & Hg & Hsk).
        exists (passed ++ gone). rewrite Hg, app_assoc.
        split; [reflexivity|].
        change (skipn (S (length (passed ++ gone))) cl = tl out).
        replace (S (length (passed ++ gone)))
          with (length gone + S (length passed))%nat
          by (rewrite length_app; lia).
        rewrite <- skipn_skipn, Hs, skipn_tl. exact Hsk.
      * intros Hn. destruct (I3 Hn) as (gone & rest0 & ->).
        exists (passed ++ gone), rest0. rewrite app_assoc. reflexivity.
    + apply Hstop.
Qed.


(** ** Bytes sent and bytes left *)

Lemma advance_sizes (cl : list hunk) (C : Z) :
  forallb hunk_ok cl = true -> 0 <= C <= chain_size cl ->
  chain_size (fst (advance C cl)) = 0
  /\ chain_size (snd (advance C cl)) = chain_size cl - C.
Proof.
  intros Hok HC.
  destruct (advance_walk cl Hok C HC) as (before & stop & E & Hp & _ & Hstop).
  assert (Hoks : forallb hunk_ok before = true /\ forallb hunk_ok stop = true).
  { rewrite E, forallb_app in Hok. apply andb_true_iff in Hok. exact Hok. }
  destruct Hoks as [Hokb Hoks].
  split; [rewrite Hp; apply chain_size_pass; exact Hokb|].
  replace (chain_size cl) with (chain_size before + chain_size stop)
    by (rewrite E, chain_size_app; reflexivity).
  destruct stop as [|h tl].
  - destruct Hstop as [-> <-]. simpl. lia.
  - destruct Hstop as (Hs & H0 & Hlt & ->).
    simpl in Hoks. apply andb_true_iff in Hoks. destruct Hoks as [Hh _].
    destruct (ok_remaining h Hh Hs) as (_ & Hr & _).
    simpl. rewrite special_shift, Hs.
    rewrite remaining_shift by (try assumption; lia). lia.
Qed.

Lemma send_loop_conserves (pl : platform) (script : list attempt_env) :
  forall c cl r,
    forallb hunk_ok cl = true -> kernel_within pl script cl = true ->
    send_loop pl script c [] [] cl = Some r ->
    c_sent (r_conn r) + chain_size (r_hunks r) = c_sent c + chain_size cl
    /\ forallb hunk_ok (r_hunks r) = true
    /\ (forall out, r_chain r = Some out ->
          chain_size out = chain_size (r_hunks r)).
Proof.
  induction script as [|e script IH]; intros c cl r Hok Hk Hr; [discriminate|].
  simpl in Hk. apply andb_true_iff in Hk. destruct Hk as [Hk Hk'].
  apply andb_true_iff in Hk. destruct Hk as [H0 H1].
  apply Z.leb_le in H0, H1.
  destruct (send_loop_cases pl e script c cl r Hr)
    as [(c1 & calls1 & Ha & ->)
       |(c1 & passed & rest & tail & eintr & eagain & calls1 & Ha & Hcase)].
  - destruct (attempt_fatal_inv pl e c cl c1 calls1 Ha) as (_ & _ & H3 & _).
    simpl. rewrite H3. split; [reflexivity|]. split; [exact Hok|discriminate].
  - destruct (attempt_advanced_inv pl e c cl _ _ _ _ _ _ _ Ha)
      as (Hp & Hrest & _ & _ & _ & _ & Hsent & _).
    destruct (advance_sizes cl _ Hok (conj H0 H1)) as [Hz Hsz].
    destruct (advance_keeps_ok cl Hok _ H0) as [Hok' _].
    rewrite <- Hp in Hz, Hok'. rewrite <- Hrest in Hsz, Hok', Hk'.
    assert (Hokr : forallb hunk_ok rest = true).
    { rewrite forallb_app in Hok'. apply andb_true_iff in Hok'. apply Hok'. }
    assert (Hstop : forall c2, c_sent c2 = c_sent c1 ->
      c_sent c2 + chain_size (passed ++ rest) = c_sent c + chain_size cl
      /\ forallb hunk_ok (passed ++ rest) = true
      /\ (forall out, Some rest = Some out ->
            chain_size out = chain_size (passed ++ rest))).
    { intros c2 Hc2. rewrite chain_size_app, Hz, Hc2, Hsent, Hsz.
      split; [lia|]. split; [exact Hok'|].
      intros out Ho. injection Ho as <-. lia. }
    destruct Hcase as [(_ & ->)|[(_ & _ & r' & Hr' & ->)|(_ & _ & ->)]].
    + simpl. apply Hstop. reflexivity.
    + destruct (IH c1 rest r' Hokr Hk' Hr') as (I1 & I2 & I3). simpl.
      rewrite chain_size_app, Hz.
      split; [lia|]. split.
      * rewrite forallb_app, I2, andb_true_r.
        rewrite forallb_app in Hok'. apply andb_true_iff in Hok'. apply Hok'.
      * intros out Ho. rewrite (I3 out Ho). lia.
    + simpl. apply Hstop. destruct rest; reflexivity.
Qed.

(** ** The classifier takes at least one link *)

Lemma kind_not_memory_only (h : hunk) :
  has_kind h = true -> ngx_hunk_special h = false ->
  ngx_hunk_in_memory_only h = false -> in_file h = true.
Proof.
  unfold has_kind. intros Hk Hs Hmo. rewrite Hs in Hk. simpl in Hk.
  destruct (in_file h) eqn:Hf; [reflexivity|].
  rewrite orb_false_r in Hk.
  rewrite (memory_without_file h Hk Hf) in Hmo. discriminate.
Qed.

Lemma classify_tail_length (iov_max : Z) (cl : list hunk) :
  (length (k_tail (classify iov_max cl))
   <= length (snd (header_loop iov_max None [] 0 cl)))%nat
  /\ (forall f, k_file (classify iov_max cl) = Some f ->
        (length (k_tail (classify iov_max cl))
         < length (snd (header_loop iov_max None [] 0 cl)))%nat).
Proof.
  unfold classify.
  destruct (header_loop iov_max None [] 0 cl) as [[header hsize] cl0].
  simpl snd. destruct cl0 as [|f cl1]; simpl; [split; [lia|discriminate]|].
  destruct (in_file f); simpl; [|split; [lia|discriminate]].
  pose proof (file_loop_length f cl1
                (to_size_t (file_last f - file_pos f)) (file_last f)) as H1.
  destruct (file_loop f _ (file_last f) cl1) as [fsize cl2].
  pose proof (trailer_loop_length iov_max cl2 None []) as H2.
  destruct (trailer_loop iov_max None [] cl2) as [trailer cl3].
  simpl in *. split; [lia | intros; lia].
Qed.

Lemma classify_consumes (iov_max : Z) (h : hunk) (t : list hunk) :
  0 < iov_max -> has_kind h = true ->
  (length (k_tail (classify iov_max (h :: t))) <= length t)%nat.
Proof.
  intros Hmax Hk.
  destruct (classify_tail_length iov_max (h :: t)) as [Hle Hlt].
  destruct (ngx_hunk_special h) eqn:Hs.
  - rewrite header_loop_special_head in Hle by (simpl; lia || assumption).
    pose proof (header_loop_length iov_max t None [] 0). lia.
  - destruct (ngx_hunk_in_memory_only h) eqn:Hmo.
    + rewrite header_loop_memory in Hle by (simpl; lia || assumption).
      match type of Hle with
      | (_ <= length (snd (header_loop _ ?p ?a ?s t)))%nat =>
          pose proof (header_loop_length iov_max t p a s)
      end. lia.
    + pose proof (kind_not_memory_only h Hk Hs Hmo) as Hf.
      assert (Hstop : header_loop iov_max None [] 0 (h :: t)
                      = ([], 0, h :: t)).
      { simpl. destruct (Z.ltb_spec 0 iov_max); [|lia]. simpl.
        rewrite Hs, Hmo. reflexivity. }
      assert (Hfile : k_file (classify iov_max (h :: t)) = Some h).
      { unfold classify. rewrite Hstop, Hf.
        destruct (file_loop h _ (file_last h) t) as [fsize cl2].
        destruct (trailer_loop iov_max None [] cl2) as [trailer cl3].
        reflexivity. }
      specialize (Hlt h Hfile). rewrite Hstop in Hlt. simpl in Hlt. lia.
Qed.

Lemma has_kind_same_ends (a b : list hunk) :
  Forall2 same_ends a b -> forallb has_kind a = forallb has_kind b.
Proof.
  induction 1 as [|x y a b Hxy _ IH]; [reflexivity|]. simpl. rewrite IH.
  destruct Hxy as (Ht & _).
  destruct (flags_of_type x y Ht) as (Em & Ef & Es & _).
  unfold has_kind. rewrite Em, Ef, Es. reflexivity.
Qed.

Lemma advance_length (cl : list hunk) (sent : Z) :
  length (fst (advance sent cl) ++ snd (advance sent cl)) = length cl.
Proof.
  destruct (advance_frame cl sent) as [H _].
  symmetry. apply (Forall2_length H).
Qed.

Lemma send_loop_returns (pl : platform) (script : list attempt_env) :
  0 < IOV_MAX pl ->
  forall c cl,
    forallb has_kind cl = true ->
    forallb not_interrupted script = true ->
    (length cl < length script)%nat ->
    exists r, send_loop pl script c [] [] cl = Some r.
Proof.
  intro Hmax.
  induction script as [|e script IH]; intros c cl Hk Hni Hlen;
    [simpl in Hlen; lia|].
  simpl in Hni. apply andb_true_iff in Hni. destruct Hni as [He Hni].
  simpl. destruct (attempt pl e c cl)
    as [c1 calls1|c1 passed rest tail eintr eagain calls1] eqn:Ha;
    [eexists; reflexivity|].
  destruct (attempt_advanced_inv pl e c cl _ _ _ _ _ _ _ Ha)
    as (Hp & Hrest & Htail & _ & _ & _ & _ & _ & _ & Hei & _).
  unfold not_interrupted in He. apply negb_true_iff in He.
  rewrite He in Hei. subst eintr.
  destruct eagain; [eexists; reflexivity|].
  rewrite orb_false_r.
  destruct (tail_is_in tail rest) eqn:Hin; [|eexists; reflexivity].
  rewrite send_loop_acc.
  assert (Hshort : (length rest < length cl)%nat).
  { destruct cl as [|h t].
    - subst tail. discriminate.
    - simpl in Hk. apply andb_true_iff in Hk. destruct Hk as [Hh _].
      pose proof (classify_consumes (IOV_MAX pl) h t Hmax Hh) as Hc.
      rewrite <- Htail in Hc.
      destruct tail as [|x tail']; [discriminate|].
      unfold tail_is_in in Hin. apply Nat.eqb_eq in Hin.
      rewrite <- Hin. simpl length in Hc. simpl length. lia. }
  destruct (advance_frame cl (reported_sent pl e cl)) as [Hf _].
  rewrite <- Hp, <- Hrest in Hf.
  assert (Hkr : forallb has_kind rest = true).
  { rewrite (has_kind_same_ends _ _ Hf), forallb_app in Hk.
    apply andb_true_iff in Hk. apply Hk. }
  destruct (IH c1 rest Hkr Hni ltac:(simpl in Hlen; lia)) as [r Hr].
  rewrite Hr. eexists. reflexivity.
Qed.

(** ** The vectors: how many entries, how many bytes *)

Lemma header_loop_cap (iov_max : Z) (cl : list hunk) :
  forall prev header hsize,
    Z.of_nat (length header) <= Z.max 0 iov_max ->
    Z.of_nat (length (fst (fst (header_loop iov_max prev header hsize cl))))
    <= Z.max 0 iov_max.
Proof.
  induction cl as [|h t IH]; intros prev header hsize Hlen; simpl;
    [exact Hlen|].
  destruct (Z.ltb_spec (Z.of_nat (length header)) iov_max) as [Hlt|];
    simpl; [|exact Hlen].
  destruct (ngx_hunk_special h); [apply IH; exact Hlen|].
  destruct (ngx_hunk_in_memory_only h); simpl; [|exact Hlen].
  apply IH. destruct (prev_is prev (pos h)).
  - rewrite iov_extend_length. exact Hlen.
  - simpl length. lia.
Qed.

Lemma trailer_is_header_loop (iov_max : Z) (cl : list hunk) :
  forall prev trailer hsize,
    trailer_loop iov_max prev trailer cl
    = (fst (fst (header_loop iov_max prev trailer hsize cl)),
       snd (header_loop iov_max prev trailer hsize cl)).
Proof.
  induction cl as [|h t IH]; intros prev trailer hsize; simpl; [reflexivity|].
  destruct (negb (Z.of_nat (length trailer) <? iov_max)); [reflexivity|].
  destruct (ngx_hunk_special h); [apply IH|].
  destruct (negb (ngx_hunk_in_memory_only h)); [reflexivity|].
  apply IH.
Qed.

Lemma classify_cap (iov_max : Z) (chain : list hunk) :
  Z.of_nat (length (k_header (classify iov_max chain))) <= Z.max 0 iov_max
  /\ Z.of_nat (length (k_trailer (classify iov_max chain)))
     <= Z.max 0 iov_max.
Proof.
  split.
  - rewrite classify_header, length_rev. apply header_loop_cap. simpl. lia.
  - unfold classify.
    destruct (header_loop iov_max None [] 0 chain) as [[header hsize] cl].
    destruct cl as [|f cl1]; simpl; [lia|].
    destruct (in_file f); simpl; [|lia].
    destruct (file_loop f _ (file_last f) cl1) as [fsize cl2].
    rewrite (trailer_is_header_loop iov_max cl2 None [] 0).
    simpl. rewrite length_rev. apply header_loop_cap. simpl. lia.
Qed.

Lemma iov_total_app (a b : list iovec) :
  iov_total (a ++ b) = iov_total a + iov_total b.
Proof. induction a as [|e a IH]; simpl; [reflexivity | rewrite IH; lia]. Qed.

Lemma iov_total_rev (a : list iovec) : iov_total (rev a) = iov_total a.
Proof.
  induction a as [|e a IH]; simpl; [reflexivity|].
  rewrite iov_total_app, IH. simpl. lia.
Qed.

Lemma to_size_t_congr (a b : Z) :
  to_size_t a = to_size_t b -> forall d, to_size_t (a + d) = to_size_t (b + d).
Proof.
  unfold to_size_t. intros H d.
  rewrite (Zplus_mod a d), (Zplus_mod b d), H. reflexivity.
Qed.

(** The loop keeps [hsize] equal, in [size_t], to the bytes of the vector,
    and [iov] non-[NULL] once [prev] is. *)
Lemma header_loop_hsize (iov_max : Z) (cl : list hunk) :
  forall prev header hsize,
    to_size_t (iov_total header) = to_size_t hsize ->
    (prev <> None -> header <> []) ->
    let '(header', hsize', _) := header_loop iov_max prev header hsize cl in
    to_size_t (iov_total header') = to_size_t hsize'.
Proof.
  induction cl as [|h t IH]; intros prev header hsize Hsum Hiov; simpl;
    [exact Hsum|].
  destruct (negb (Z.of_nat (length header) <? iov_max)); [exact Hsum|].
  destruct (ngx_hunk_special h); [apply IH; assumption|].
  destruct (negb (ngx_hunk_in_memory_only h)); [exact Hsum|].
  set (d := last h - pos h).
  assert (Hgoal : forall total,
            to_size_t total = to_size_t (iov_total header + d) ->
            to_size_t total = to_size_t (to_size_t (hsize + d))).
  { intros total ->. rewrite (to_size_t_congr _ _ Hsum d).
    symmetry. apply to_size_t_small, to_size_t_range. }
  apply IH.
  - apply Hgoal. destruct (prev_is prev (pos h)) eqn:Hp.
    + destruct header as [|e header].
      * destruct prev; [|discriminate]. exfalso. apply Hiov; congruence.
      * simpl. unfold to_size_t. rewrite Zplus_mod_idemp_l. f_equal. lia.
    + simpl. unfold to_size_t. rewrite Zplus_mod_idemp_l. f_equal. lia.
  - intros _. destruct (prev_is prev (pos h)) eqn:Hp; [|discriminate].
    destruct header; [|discriminate].
    destruct prev; [|discriminate]. exfalso. apply Hiov; congruence.
Qed.

Lemma header_loop_hsize_range (iov_max : Z) (cl : list hunk) :
  forall prev header hsize,
    0 <= hsize < 2 ^ 64 ->
    0 <= snd (fst (header_loop iov_max prev header hsize cl)) < 2 ^ 64.
Proof.
  induction cl as [|h t IH]; intros prev header hsize Hr; simpl; [exact Hr|].
  destruct (negb (Z.of_nat (length header) <? iov_max)); [exact Hr|].
  destruct (ngx_hunk_special h); [apply IH; exact Hr|].
  destruct (negb (ngx_hunk_in_memory_only h)); [exact Hr|].
  apply IH, to_size_t_range.
Qed.

Lemma classify_hsize_loop (iov_max : Z) (chain : list hunk) :
  k_hsize (classify iov_max chain)
  = snd (fst (header_loop iov_max None [] 0 chain)).
Proof.
  unfold classify.
  destruct (header_loop iov_max None [] 0 chain) as [[header hsize] cl].
  destruct cl as [|f cl1]; [reflexivity|].
  destruct (in_file f); [|reflexivity].
  destruct (file_loop f _ _ cl1) as [fsize cl2].
  destruct (trailer_loop iov_max None [] cl2) as [trailer cl3].
  reflexivity.
Qed.

(** ** The three parts of a classified chain *)

Lemma header_loop_split (iov_max : Z) (cl : list hunk) :
  forall prev header hsize,
    exists taken,
      cl = taken ++ snd (header_loop iov_max prev header hsize cl)
      /\ forallb vector_part taken = true
      /\ to_size_t (snd (fst (header_loop iov_max prev header hsize cl)))
         = to_size_t (hsize + memory_bytes taken).
Proof.
  induction cl as [|h t IH]; intros prev header hsize; simpl.
  - exists []. rewrite Z.add_0_r. repeat split.
  - destruct (negb (Z.of_nat (length header) <? iov_max)).
    { exists []. simpl. rewrite Z.add_0_r. repeat split. }
    destruct (ngx_hunk_special h) eqn:Hs.
    + destruct (IH prev header hsize) as (taken & E & Hv & Hsz).
      exists (h :: taken). simpl. unfold vector_part at 1. rewrite Hs. simpl.
      split; [f_equal; exact E|]. split; [exact Hv | exact Hsz].
    + destruct (ngx_hunk_in_memory_only h) eqn:Hmo; simpl.
      2:{ exists []. simpl. rewrite Z.add_0_r. repeat split. }
      match goal with |- context [header_loop _ ?p ?a ?s t] =>
        destruct (IH p a s) as (taken & E & Hv & Hsz) end.
      exists (h :: taken). simpl. unfold vector_part at 1.
      rewrite Hs, Hmo. simpl.
      split; [f_equal; exact E|]. split; [exact Hv|].
      rewrite Hsz. unfold to_size_t. rewrite Zplus_mod_idemp_l.
      f_equal. lia.
Qed.

Lemma file_loop_split (file : hunk) (cl : list hunk) :
  forall fsize fprev,
    exists taken,
      cl = taken ++ snd (file_loop file fsize fprev cl)
      /\ file_run file fprev taken = true
      /\ to_size_t (fst (file_loop file fsize fprev cl))
         = to_size_t (fsize + file_bytes taken).
Proof.
  induction cl as [|h t IH]; intros fsize fprev; simpl.
  - exists []. rewrite Z.add_0_r. repeat split.
  - destruct (in_file h) eqn:Hf; simpl.
    2:{ exists []. simpl. rewrite Z.add_0_r. repeat split. }
    destruct (fd file =? fd h) eqn:Hfd; simpl.
    2:{ exists []. simpl. rewrite Z.add_0_r. repeat split. }
    destruct (fprev =? file_pos h) eqn:Hpos; simpl.
    2:{ exists []. simpl. rewrite Z.add_0_r. repeat split. }
    match goal with |- context [file_loop file ?s ?p t] =>
      destruct (IH s p) as (taken & E & Hrun & Hsz) end.
    exists (h :: taken). simpl. rewrite Hf, Hfd, Hpos. simpl.
    split; [f_equal; exact E|]. split; [exact Hrun|].
    rewrite Hsz. unfold to_size_t. rewrite Zplus_mod_idemp_l.
    rewrite <- Z.add_assoc, (Z.add_comm _ (file_bytes taken)), Z.add_assoc.
    rewrite Zplus_mod_idemp_r. f_equal. lia.
Qed.

(** X1.  The classifier cuts the chain into four consecutive parts: the
    links of the header vector (markers and memory-only hunks), the file
    region (a first file hunk and the file hunks after it that are on the
    same file, each starting at the offset where the one before ended), the
    links of the trailer vector (markers and memory-only hunks again), and
    the tail.  The header vector describes as many bytes as the memory hunks
    of the first part hold, and [hsize] is that number; the trailer vector
    describes as many bytes as the memory hunks of the third part hold;
    [fsize] is the number of file bytes in the second part (all in [size_t]
    arithmetic).  Without a file hunk after the first part there is no file
    region and no trailer. *)
Theorem classify_partition (iov_max : Z) (chain : list hunk) :
  let k := classify iov_max chain in
  exists hp fp tp,
    chain = hp ++ fp ++ tp ++ k_tail k
    /\ forallb vector_part hp = true
    /\ k_hsize k = to_size_t (memory_bytes hp)
    /\ to_size_t (iov_total (k_header k)) = k_hsize k
    /\ forallb vector_part tp = true
    /\ to_size_t (iov_total (k_trailer k)) = to_size_t (memory_bytes tp)
    /\ match k_file k with
       | None => fp = [] /\ tp = [] /\ k_fsize k = 0 /\ k_trailer k = []
       | Some f =>
           exists fp', fp = f :: fp' /\ in_file f = true
                       /\ file_run f (file_last f) fp' = true
                       /\ k_fsize k = to_size_t (file_bytes fp)
       end.
Proof.
  intro k.
  assert (Hnull : (@None Z) <> None -> (@nil iovec) <> [])
    by (intro H; exfalso; apply H; reflexivity).
  destruct (header_loop_split iov_max chain None [] 0) as (hp & E & Hv & Hsz).
  pose proof (header_loop_hsize_range iov_max chain None [] 0 ltac:(lia))
    as Hr.
  pose proof (header_loop_hsize iov_max chain None [] 0 eq_refl Hnull) as Hb.
  assert (Hh : snd (fst (header_loop iov_max None [] 0 chain))
               = to_size_t (memory_bytes hp)).
  { simpl Z.add in Hsz. rewrite <- Hsz.
    symmetry. apply to_size_t_small. exact Hr. }
  clear Hsz. unfold k. clear k. unfold classify.
  destruct (header_loop iov_max None [] 0 chain) as [[header hsize] cl].
  cbn [fst snd] in E, Hh, Hr.
  assert (Hhb : to_size_t (iov_total (rev header)) = hsize).
  { rewrite iov_total_rev, Hb. apply to_size_t_small. exact Hr. }
  clear Hb Hr.
  destruct cl as [|f cl1].
  - exists hp, [], []. simpl. repeat split; assumption.
  - destruct (in_file f) eqn:Hf.
    + destruct (file_loop_split f cl1
                  (to_size_t (file_last f - file_pos f)) (file_last f))
        as (fp' & E1 & Hrun & Hfs).
      pose proof (file_loop_range f cl1
                    (to_size_t (file_last f - file_pos f)) (file_last f)
                    (to_size_t_range _)) as Hfr.
      destruct (file_loop f _ (file_last f) cl1) as [fsize cl2].
      cbn [fst snd] in E1, Hfs, Hfr.
      destruct (header_loop_split iov_max cl2 None [] 0)
        as (tp & E2 & Hvt & Htsz).
      pose proof (header_loop_hsize iov_max cl2 None [] 0 eq_refl Hnull) as Htb.
      rewrite (trailer_is_header_loop iov_max cl2 None [] 0).
      destruct (header_loop iov_max None [] 0 cl2) as [[trailer hs] cl3].
      cbn [fst snd] in E2, Htsz.
      cbn [fst snd k_tail k_hsize k_file k_fsize k_header k_trailer].
      exists hp, (f :: fp'), tp.
      split; [rewrite E at 1; simpl; do 2 f_equal; rewrite <- E2; exact E1|].
      split; [exact Hv|]. split; [exact Hh|]. split; [exact Hhb|].
      split; [exact Hvt|].
      split; [rewrite iov_total_rev, Htb, Htsz; reflexivity|].
      exists fp'. split; [reflexivity|]. split; [exact Hf|].
      split; [exact Hrun|].
      rewrite <- (to_size_t_small fsize Hfr), Hfs.
      unfold to_size_t. rewrite Zplus_mod_idemp_l. reflexivity.
    + exists hp, [], []. simpl. repeat split; assumption.
Qed.

(** ** The system calls of a pass and of a call *)

Lemma attempt_calls_shape (pl : platform) (e : attempt_env) (c : connection)
    (cl : list hunk) (s : syscall) :
  In s (attempt_calls (attempt pl e c cl)) ->
  let k := classify (IOV_MAX pl) cl in
  (s = Sys_tcp_nopush /\ k_file k <> None
   /\ ngx_freebsd_use_tcp_nopush pl <> 0 /\ c_tcp_nopush c = 0)
  \/ (exists f, k_file k = Some f
        /\ s = Sys_sendfile (fd f) (file_pos f) (sendfile_nbytes pl k)
                            (k_header k) (k_trailer k))
  \/ (k_file k = None /\ s = Sys_writev (k_header k)).
Proof.
  intros Hin k.
  destruct (is_sendfile s) eqn:Hsf.
  { right; left. apply (attempt_sendfile_args pl e c cl s Hin Hsf). }
  unfold attempt in Hin. fold k in Hin.
  destruct (pool_ok e); simpl in Hin; [|contradiction].
  destruct (k_file k) as [file|] eqn:Hf.
  - left.
    destruct (nopush_step pl e c) as [[o c1] calls] eqn:En.
    destruct (nopush_step_inv pl e c o c1 calls En)
      as (_ & _ & _ & _ & _ & Hc & Hne).
    assert (Hs : In s (calls ++
               [Sys_sendfile (fd file) (file_pos file) (sendfile_nbytes pl k)
                             (k_header k) (k_trailer k)]) -> In s calls).
    { intro H. apply in_app_or in H. destruct H as [H|[<-|[]]];
        [exact H | discriminate]. }
    assert (Hin' : In s calls).
    { destruct o as [c2|]; [|exact Hin].
      destruct (xfer_rc e =? -1).
      - destruct ((xfer_errno e =? NGX_EAGAIN) || (xfer_errno e =? NGX_EINTR)).
        + rewrite account_calls in Hin. apply Hs, Hin.
        + apply Hs, Hin.
      - rewrite account_calls in Hin. apply Hs, Hin. }
    assert (Hnn : calls <> []) by (intros ->; contradiction).
    destruct (Hne Hnn) as [Hu Hc0].
    destruct Hc as [->| ->]; [contradiction|].
    destruct Hin' as [<-|[]]. repeat split; auto. discriminate.
  - right; right. split; [reflexivity|].
    destruct (xfer_rc e =? -1).
    + destruct ((xfer_errno e =? NGX_EAGAIN) || (xfer_errno e =? NGX_EINTR)).
      * rewrite account_calls in Hin. destruct Hin as [<-|[]]. reflexivity.
      * destruct Hin as [<-|[]]. reflexivity.
    + rewrite account_calls in Hin. destruct Hin as [<-|[]]. reflexivity.
Qed.

Lemma send_loop_calls_ind (pl : platform) (Q : syscall -> Prop)
    (I : connection -> list hunk -> Prop) :
  (forall e c cl s,
      I c cl -> In s (attempt_calls (attempt pl e c cl)) -> Q s) ->
  (forall e c cl c1 passed rest tail eintr eagain calls1,
      I c cl ->
      attempt pl e c cl = Advanced c1 passed rest tail eintr eagain calls1 ->
      I c1 rest) ->
  forall script c cl r,
    I c cl -> send_loop pl script c [] [] cl = Some r -> Forall Q (r_calls r).
Proof.
  intros HQ HI.
  induction script as [|e script IH]; intros c cl r Hc Hr; [discriminate|].
  pose proof (fun s => HQ e c cl s Hc) as Hq.
  destruct (send_loop_cases pl e script c cl r Hr)
    as [(c1 & calls1 & Ha & ->)
       |(c1 & passed & rest & tail & eintr & eagain & calls1 & Ha & Hcase)];
    rewrite Ha in Hq; simpl in Hq.
  - simpl. apply Forall_forall. exact Hq.
  - pose proof (HI e c cl _ _ _ _ _ _ _ Hc Ha) as Hi.
    destruct Hcase as [(_ & ->)|[(_ & _ & r' & Hr' & ->)|(_ & _ & ->)]]; simpl.
    + apply Forall_forall. exact Hq.
    + apply Forall_app. split; [apply Forall_forall; exact Hq|].
      apply (IH c1 rest r' Hi Hr').
    + apply Forall_forall. exact Hq.
Qed.

(** ** The whole call *)

Lemma function_cases (pl : platform) (script : list attempt_env)
    (c : connection) (chain : list hunk) (r : result) :
  ngx_freebsd_sendfile_chain pl script c chain = Some r ->
  (wev_ready c = false /\ r = mkResult (Some chain) c chain [])
  \/ (wev_ready c = true /\ kqueue_event pl && wev_kq_eof c = true
      /\ r = mkResult None (set_error c) chain [])
  \/ (wev_ready c = true /\ kqueue_event pl && wev_kq_eof c = false
      /\ send_loop pl script c [] [] chain = Some r).
Proof.
  unfold ngx_freebsd_sendfile_chain.
  destruct (wev_ready c); simpl.
  - destruct (kqueue_event pl && wev_kq_eof c).
    + intro H. injection H as <-. right; left. repeat split.
    + intro H. right; right. repeat split. exact H.
  - intro H. injection H as <-. left. split; reflexivity.
Qed.

(** X2.  No system call is ever given more than [IOV_MAX] vector entries:
    in every [writev()] and every [sendfile()] of a call, the header vector
    and the trailer vector have at most [IOV_MAX] entries (none when
    [IOV_MAX] is not positive). *)
Theorem vectors_never_exceed_iov_max (pl : platform)
    (script : list attempt_env) (c : connection) (chain : list hunk)
    (r : result)
    (Hr : ngx_freebsd_sendfile_chain pl script c chain = Some r) :
  Forall (vectors_within (Z.max 0 (IOV_MAX pl))) (r_calls r).
Proof.
  destruct (function_cases pl script c chain r Hr)
    as [(_ & ->)|[(_ & _ & ->)|(_ & _ & Hl)]]; try (simpl; constructor).
  apply (send_loop_calls_ind pl (vectors_within (Z.max 0 (IOV_MAX pl)))
           (fun _ _ => True)) with (script := script) (c := c) (cl := chain);
    auto.
  intros e c0 cl s _ Hin.
  destruct (classify_cap (IOV_MAX pl) cl) as [Hh Ht].
  destruct (attempt_calls_shape pl e c0 cl s Hin)
    as [(-> & _)|[(f & _ & ->)|(_ & ->)]]; simpl; auto.
Qed.

Lemma vectors_never_exceed_iov_max_witness :
  let pl := mkPlatform 2 true 1 0 in
  let chain := [mem_hunk 100 104; mem_hunk 200 204; mem_hunk 300 304] in
  let script := [env_ok 8 0; env_ok 4 0] in
  ngx_freebsd_sendfile_chain pl script ready_conn chain
  = Some (mkResult (Some []) (mkConn true false false 0 12)
            [mem_hunk 104 104; mem_hunk 204 204; mem_hunk 304 304]
            [Sys_writev [mkIov 100 4; mkIov 200 4]; Sys_writev [mkIov 300 4]])
  /\ Forall (vectors_within (Z.max 0 2))
       [Sys_writev [mkIov 100 4; mkIov 200 4]; Sys_writev [mkIov 300 4]].
Proof.
  intros pl chain script.
  assert (Hr : ngx_freebsd_sendfile_chain pl script ready_conn chain
    = Some (mkResult (Some []) (mkConn true false false 0 12)
            [mem_hunk 104 104; mem_hunk 204 204; mem_hunk 304 304]
            [Sys_writev [mkIov 100 4; mkIov 200 4]; Sys_writev [mkIov 300 4]]))
    by reflexivity.
  split; [exact Hr|].
  exact (vectors_never_exceed_iov_max pl script ready_conn chain _ Hr).
Defined.

Lemma advance_head_not_special (cl : list hunk) :
  forall sent h t,
    snd (advance sent cl) = h :: t -> ngx_hunk_special h = false.
Proof.
  induction cl as [|x l IH]; intros sent h t; simpl; [discriminate|].
  destruct (ngx_hunk_special x) eqn:Hs.
  - specialize (IH sent h t). destruct (advance sent l). exact IH.
  - destruct (sent =? 0); simpl.
    + intro H. injection H as <- _. exact Hs.
    + destruct (sent >=? to_ssize_t (ngx_hunk_size x)).
      * specialize (IH (sent - to_ssize_t (ngx_hunk_size x)) h t).
        destruct (advance _ l). exact IH.
      * simpl. intro H. injection H as <- _. rewrite special_shift. exact Hs.
Qed.

Lemma send_loop_head (pl : platform) (script : list attempt_env) :
  forall c cl r h t,
    send_loop pl script c [] [] cl = Some r ->
    r_chain r = Some (h :: t) -> ngx_hunk_special h = false.
Proof.
  induction script as [|e script IH]; intros c cl r h t Hr Hc; [discriminate|].
  destruct (send_loop_cases pl e script c cl r Hr)
    as [(c1 & calls1 & Ha & ->)
       |(c1 & passed & rest & tail & eintr & eagain & calls1 & Ha & Hcase)];
    [discriminate|].
  destruct (attempt_advanced_inv pl e c cl _ _ _ _ _ _ _ Ha)
    as (_ & Hrest & _).
  destruct Hcase as [(_ & ->)|[(_ & _ & r' & Hr' & ->)|(_ & _ & ->)]];
    simpl in Hc.
  - injection Hc as ->.
    apply (advance_head_not_special cl _ h t (eq_sym Hrest)).
  - apply (IH c1 rest r' h t Hr' Hc).
  - injection Hc as ->.
    apply (advance_head_not_special cl _ h t (eq_sym Hrest)).
Qed.

(** X3.  A call writes nothing in a hunk but its start cursors: flags, end
    cursors and file of every hunk of the chain are the same afterwards, and
    no hunk is added or dropped.  The chain it returns is the end of the
    input chain from some link on; the hunks behind that link are exactly
    as they were.  After a pass of the loop the returned chain never starts
    with a special hunk. *)
Theorem call_moves_only_start_cursors (pl : platform)
    (script : list attempt_env) (c : connection) (chain : list hunk)
    (r : result)
    (Hr : ngx_freebsd_sendfile_chain pl script c chain = Some r) :
  Forall2 same_ends chain (r_hunks r)
  /\ length (r_hunks r) = length chain
  /\ (forall out, r_chain r = Some out ->
        exists gone, r_hunks r = gone ++ out
          /\ (out = chain \/ skipn (S (length gone)) chain = tl out))
  /\ (wev_ready c = true -> forall h t,
        r_chain r = Some (h :: t) -> ngx_hunk_special h = false).
Proof.
  destruct (function_cases pl script c chain r Hr)
    as [(Hnr & ->)|[(_ & _ & ->)|(_ & _ & Hl)]]; simpl.
  - split; [apply Forall2_same_ends_refl|]. split; [reflexivity|].
    split; [|congruence].
    intros out Ho. injection Ho as <-. exists []. split; [reflexivity|].
    left; reflexivity.
  - split; [apply Forall2_same_ends_refl|]. split; [reflexivity|].
    split; discriminate.
  - destruct (send_loop_hunks pl script c chain r Hl) as (H1 & H2 & _).
    split; [exact H1|].
    split; [symmetry; apply (Forall2_length H1)|].
    split.
    + intros out Ho. destruct (H2 out Ho) as (gone & Hg & Hs).
      exists gone. split; [exact Hg | right; exact Hs].
    + intros _ h t Hc. apply (send_loop_head pl script c chain r h t Hl Hc).
Qed.

Lemma call_moves_only_start_cursors_witness :
  let pl := freebsd 1 0 in
  let chain := [mem_hunk 100 104; flush_hunk; file_hunk 3 0 10;
                mem_hunk 200 203] in
  let r := mkResult (Some [file_hunk 3 2 10; mem_hunk 200 203])
             (mkConn false false false 1 6)
             [mem_hunk 104 104; flush_hunk; file_hunk 3 2 10;
              mem_hunk 200 203]
             [Sys_tcp_nopush; Sys_sendfile 3 0 10 [mkIov 100 4] [mkIov 200 3]]
  in
  ngx_freebsd_sendfile_chain pl [env_ok 0 6] ready_conn chain = Some r
  /\ Forall2 same_ends chain (r_hunks r)
  /\ length (r_hunks r) = length chain.
Proof.
  intros pl chain r.
  assert (Hr : ngx_freebsd_sendfile_chain pl [env_ok 0 6] ready_conn chain
               = Some r) by reflexivity.
  destruct (call_moves_only_start_cursors pl [env_ok 0 6] ready_conn chain r Hr)
    as (H1 & H2 & _).
  split; [exact Hr|]. split; [exact H1 | exact H2].
Defined.

(** X4.  Bytes are conserved over a whole call, however many passes it
    makes and however it ends: when the segments are well formed and the
    kernel reports, in every pass, a count between zero and the bytes left in
    the chain, the sent counter of the connection grows by exactly the bytes
    the chain has lost.  The segments are still well formed afterwards, and
    all the bytes left are in the chain that is returned. *)
Theorem call_conserves_bytes (pl : platform) (script : list attempt_env)
    (c : connection) (chain : list hunk) (r : result)
    (Hok : forallb hunk_ok chain = true)
    (Hkernel : kernel_within pl script chain = true)
    (Hr : ngx_freebsd_sendfile_chain pl script c chain = Some r) :
  c_sent (r_conn r) - c_sent c = chain_size chain - chain_size (r_hunks r)
  /\ forallb hunk_ok (r_hunks r) = true
  /\ (forall out, r_chain r = Some out ->
        chain_size out = chain_size (r_hunks r)).
Proof.
  destruct (function_cases pl script c chain r Hr)
    as [(_ & ->)|[(_ & _ & ->)|(_ & _ & Hl)]]; simpl.
  - split; [lia|]. split; [exact Hok|].
    intros out Ho. injection Ho as <-. reflexivity.
  - split; [lia|]. split; [exact Hok | discriminate].
  - destruct (send_loop_conserves pl script c chain r Hok Hkernel Hl)
      as (H1 & H2 & H3).
    split; [lia|]. split; [exact H2 | exact H3].
Qed.

Lemma call_conserves_bytes_witness :
  let pl := freebsd 1 0 in
  let chain := [mem_hunk 100 104; file_hunk 3 0 10; file_hunk 4 0 6] in
  let script := [env_err NGX_EINTR 3; env_ok 0 11; env_err NGX_EAGAIN 2] in
  let r := mkResult (Some [file_hunk 4 2 6]) (mkConn false false false 1 16)
             [mem_hunk 104 104; file_hunk 3 10 10; file_hunk 4 2 6]
             [Sys_tcp_nopush; Sys_sendfile 3 0 10 [mkIov 100 4] [];
              Sys_sendfile 3 0 10 [mkIov 103 1] [];
              Sys_sendfile 4 0 6 [] []] in
  (forallb hunk_ok chain = true /\ kernel_within pl script chain = true
   /\ ngx_freebsd_sendfile_chain pl script ready_conn chain = Some r)
  /\ c_sent (r_conn r) - c_sent ready_conn
     = chain_size chain - chain_size (r_hunks r).
Proof.
  intros pl chain script r.
  assert (Hr : ngx_freebsd_sendfile_chain pl script ready_conn chain = Some r)
    by reflexivity.
  split; [repeat split; reflexivity|].
  exact (proj1 (call_conserves_bytes pl script ready_conn chain r
                  eq_refl eq_refl Hr)).
Defined.

(** X5.  The walk keeps the segments well formed and never moves a cursor
    back: for a count that is not negative, every segment is still well
    formed afterwards (start at or before end) and the start cursor that
    gives a segment its length is where it was or further on. *)
Theorem walk_keeps_segments_well_formed (cl : list hunk) (sent : Z)
    (Hok : forallb hunk_ok cl = true) (Hsent : 0 <= sent) :
  forallb hunk_ok (fst (advance sent cl) ++ snd (advance sent cl)) = true
  /\ Forall2 (fun a b => start_cursor a <= start_cursor b)
             cl (fst (advance sent cl) ++ snd (advance sent cl)).
Proof. apply advance_keeps_ok; assumption. Qed.

Lemma walk_keeps_segments_well_formed_witness :
  let cl := [mem_hunk 100 104; flush_hunk; file_hunk 3 0 10] in
  (forallb hunk_ok cl = true /\ 0 <= 6)
  /\ forallb hunk_ok (fst (advance 6 cl) ++ snd (advance 6 cl)) = true.
Proof.
  intro cl. split; [split; [reflexivity | lia]|].
  exact (proj1 (walk_keeps_segments_well_formed cl 6 eq_refl ltac:(lia))).
Defined.

(** X6.  What a call does to the flags of the connection.  It never sets
    write-readiness (if the flag is set afterwards it was set before), never
    clears the fault flag, and leaves the kqueue end-of-file mark alone.  The
    TCP_NOPUSH flag stays as it was or goes from 0 to 1, the latter only on
    a platform that uses TCP_NOPUSH; it is never switched back. *)
Theorem call_flags (pl : platform) (script : list attempt_env)
    (c : connection) (chain : list hunk) (r : result)
    (Hr : ngx_freebsd_sendfile_chain pl script c chain = Some r) :
  (wev_ready (r_conn r) = true -> wev_ready c = true)
  /\ (wev_error c = true -> wev_error (r_conn r) = true)
  /\ wev_kq_eof (r_conn r) = wev_kq_eof c
  /\ nopush_kept_or_set pl c (r_conn r).
Proof.
  destruct (function_cases pl script c chain r Hr)
    as [(_ & ->)|[(_ & _ & ->)|(_ & _ & Hl)]]; simpl.
  - repeat split; auto. left; reflexivity.
  - repeat split; auto. left; reflexivity.
  - destruct (send_loop_conn pl script c chain r Hl)
      as (H1 & H2 & H3 & _ & _ & H6).
    repeat split; assumption.
Qed.

Lemma call_flags_witness :
  let pl := freebsd 1 0 in
  let chain := [mem_hunk 100 104; file_hunk 3 0 10] in
  let r := mkResult (Some [file_hunk 3 2 10]) (mkConn false false false 1 6)
             [mem_hunk 104 104; file_hunk 3 2 10]
             [Sys_tcp_nopush; Sys_sendfile 3 0 10 [mkIov 100 4] []] in
  ngx_freebsd_sendfile_chain pl [env_ok 0 6] ready_conn chain = Some r
  /\ nopush_kept_or_set pl ready_conn (r_conn r).
Proof.
  intros pl chain r.
  assert (Hr : ngx_freebsd_sendfile_chain pl [env_ok 0 6] ready_conn chain
               = Some r) by reflexivity.
  split; [exact Hr|].
  exact (proj2 (proj2 (proj2 (call_flags pl [env_ok 0 6] ready_conn chain r
                                Hr)))).
Defined.

(** X7.  How a call signals failure.  When it returns a chain, the fault
    flag is as it was before the call.  When it returns the error value, the
    fault flag is set, unless the pool could not serve the vectors of some
    pass (then the error value comes back with the flags untouched by that
    pass). *)
Theorem call_error_signal (pl : platform) (script : list attempt_env)
    (c : connection) (chain : list hunk) (r : result)
    (Hr : ngx_freebsd_sendfile_chain pl script c chain = Some r) :
  (forall out, r_chain r = Some out -> wev_error (r_conn r) = wev_error c)
  /\ (r_chain r = None ->
      wev_error (r_conn r) = true
      \/ exists e, In e script /\ pool_ok e = false).
Proof.
  destruct (function_cases pl script c chain r Hr)
    as [(_ & ->)|[(_ & _ & ->)|(_ & _ & Hl)]]; simpl.
  - split; [reflexivity | discriminate].
  - split; [discriminate | left; reflexivity].
  - destruct (send_loop_conn pl script c chain r Hl)
      as (_ & _ & _ & H4 & H5 & _).
    split; assumption.
Qed.

Lemma call_error_signal_witness :
  let pl := freebsd 1 0 in
  let chain := [mem_hunk 100 104; file_hunk 3 0 10] in
  let script := [env_err NGX_EINTR 2; env_err 32 0] in
  let r := mkResult None (mkConn true false true 1 2)
             [mem_hunk 102 104; file_hunk 3 0 10]
             [Sys_tcp_nopush; Sys_sendfile 3 0 10 [mkIov 100 4] [];
              Sys_sendfile 3 0 10 [mkIov 102 2] []] in
  ngx_freebsd_sendfile_chain pl script ready_conn chain = Some r
  /\ (r_chain r = None ->
      wev_error (r_conn r) = true
      \/ exists e, In e script /\ pool_ok e = false).
Proof.
  intros pl chain script r.
  assert (Hr : ngx_freebsd_sendfile_chain pl script ready_conn chain = Some r)
    by reflexivity.
  split; [exact Hr|].
  exact (proj2 (call_error_signal pl script ready_conn chain r Hr)).
Defined.

(** X8.  The loop is bounded by the length of the chain.  With a vector
    limit of at least one and hunks whose flags say what they are, a pass
    that goes on because the tail has been reached starts from a strictly
    shorter chain; so when no transfer call is interrupted, the call returns
    within as many passes as the chain has links, plus one. *)
Theorem call_returns_within_chain_length (pl : platform)
    (script : list attempt_env) (c : connection) (chain : list hunk)
    (Hmax : 0 < IOV_MAX pl)
    (Hkind : forallb has_kind chain = true)
    (Hni : forallb not_interrupted script = true)
    (Hlen : (length chain < length script)%nat) :
  exists r, ngx_freebsd_sendfile_chain pl script c chain = Some r.
Proof.
  unfold ngx_freebsd_sendfile_chain.
  destruct (negb (wev_ready c)); [eexists; reflexivity|].
  destruct (kqueue_event pl && wev_kq_eof c); [eexists; reflexivity|].
  apply send_loop_returns; assumption.
Qed.

Lemma call_returns_within_chain_length_witness :
  let pl := freebsd 1 0 in
  let chain := [file_hunk 3 0 10; file_hunk 4 0 6] in
  let script := [env_ok 0 10; env_ok 0 6; env_ok 0 0] in
  (0 < IOV_MAX pl /\ forallb has_kind chain = true
   /\ forallb not_interrupted script = true
   /\ (length chain < length script)%nat)
  /\ exists r, ngx_freebsd_sendfile_chain pl script ready_conn chain = Some r.
Proof.
  intros pl chain script.
  assert (Hmax : 0 < IOV_MAX pl) by reflexivity.
  assert (Hlen : (length chain < length script)%nat) by (simpl; lia).
  split; [repeat split; try reflexivity; assumption|].
  exact (call_returns_within_chain_length pl script ready_conn chain
           Hmax eq_refl eq_refl Hlen).
Defined.

(** X9.  Going round the loop is the same as calling again.  When a pass
    ends without a fatal error and without "would block" from [sendfile()],
    and the loop goes on (the call was interrupted, or the new head is the
    tail), the call returns what a fresh call on the advanced chain and the
    connection as the pass left it returns, with the hunks that pass went
    past and the system calls it made put in front. *)
Theorem loop_continues_as_new_call (pl : platform) (e : attempt_env)
    (script : list attempt_env) (c c1 : connection)
    (chain passed rest tail : list hunk) (eintr : bool)
    (calls1 : list syscall)
    (Hready : wev_ready c = true)
    (Hkq : kqueue_event pl && wev_kq_eof c = false)
    (Hpass : attempt pl e c chain
             = Advanced c1 passed rest tail eintr false calls1)
    (Hgo : tail_is_in tail rest || eintr = true) :
  ngx_freebsd_sendfile_chain pl (e :: script) c chain
  = option_map (extend_result passed calls1)
               (ngx_freebsd_sendfile_chain pl script c1 rest).
Proof.
  destruct (attempt_advanced_inv pl e c chain _ _ _ _ _ _ _ Hpass)
    as (_ & _ & _ & H1 & H2 & _).
  unfold ngx_freebsd_sendfile_chain.
  rewrite H1, H2, Hready, Hkq. simpl.
  rewrite Hpass, Hgo. apply send_loop_acc.
Qed.

Lemma loop_continues_as_new_call_witness :
  let pl := freebsd 1 0 in
  let e := env_err NGX_EINTR 3 in
  let script := [env_ok 0 11] in
  let chain := [mem_hunk 100 104; file_hunk 3 0 10] in
  let rest := [mem_hunk 103 104; file_hunk 3 0 10] in
  let c1 := mkConn true false false 1 3 in
  let calls1 := [Sys_tcp_nopush; Sys_sendfile 3 0 10 [mkIov 100 4] []] in
  (wev_ready ready_conn = true
   /\ kqueue_event pl && wev_kq_eof ready_conn = false
   /\ attempt pl e ready_conn chain = Advanced c1 [] rest [] true false calls1
   /\ tail_is_in [] rest || true = true)
  /\ ngx_freebsd_sendfile_chain pl (e :: script) ready_conn chain
     = option_map (extend_result [] calls1)
                  (ngx_freebsd_sendfile_chain pl script c1 rest).
Proof.
  intros pl e script chain rest c1 calls1.
  assert (Hpass : attempt pl e ready_conn chain
                  = Advanced c1 [] rest [] true false calls1) by reflexivity.
  split; [repeat split; reflexivity|].
  exact (loop_continues_as_new_call pl e script ready_conn c1 chain [] rest []
           true calls1 eq_refl eq_refl Hpass eq_refl).
Defined.

(** X10.  "Would block" from [sendfile()] ends the call at once, as a hint
    (lines 302-313): whatever count comes with it is accounted for, the
    chain is advanced by it, and write-readiness is cleared even when the
    chain has been sent completely and [NULL] is returned. *)
Theorem sendfile_would_block_stops (pl : platform) (e : attempt_env)
    (script : list attempt_env) (c : connection) (chain : list hunk)
    (file : hunk)
    (Hready : wev_ready c = true)
    (Hkq : kqueue_event pl && wev_kq_eof c = false)
    (Hpool : pool_ok e = true)
    (Hnopush : nopush_harmless e = true)
    (Hfile : k_file (classify (IOV_MAX pl) chain) = Some file)
    (Hrc : xfer_rc e = -1)
    (Herr : xfer_errno e = NGX_EAGAIN) :
  exists r,
    ngx_freebsd_sendfile_chain pl (e :: script) c chain = Some r
    /\ r_chain r = Some (snd (advance (xfer_sent e) chain))
    /\ r_hunks r = fst (advance (xfer_sent e) chain)
                   ++ snd (advance (xfer_sent e) chain)
    /\ wev_ready (r_conn r) = false
    /\ wev_error (r_conn r) = wev_error c
    /\ c_sent (r_conn r) = c_sent c + xfer_sent e.
Proof.
  unfold ngx_freebsd_sendfile_chain. rewrite Hready, Hkq. simpl.
  unfold attempt. rewrite Hpool, Hfile, Hrc, Herr. simpl.
  destruct (nopush_step_harmless pl e c Hnopush)
    as (c1 & calls & -> & _ & H2 & H3).
  rewrite account_inv. simpl.
  eexists. split; [reflexivity|]. simpl.
  split; [reflexivity|]. split; [reflexivity|]. split; [reflexivity|].
  split; [exact H2 | rewrite H3; reflexivity].
Qed.

Lemma sendfile_would_block_stops_witness :
  let pl := freebsd 1 0 in
  let e := env_err NGX_EAGAIN 10 in
  let chain := [file_hunk 3 0 10] in
  (wev_ready ready_conn = true
   /\ kqueue_event pl && wev_kq_eof ready_conn = false
   /\ pool_ok e = true /\ nopush_harmless e = true
   /\ k_file (classify (IOV_MAX pl) chain) = Some (file_hunk 3 0 10)
   /\ xfer_rc e = -1 /\ xfer_errno e = NGX_EAGAIN)
  /\ exists r,
       ngx_freebsd_sendfile_chain pl [e] ready_conn chain = Some r
       /\ r_chain r = Some (snd (advance (xfer_sent e) chain))
       /\ r_hunks r = fst (advance (xfer_sent e) chain)
                      ++ snd (advance (xfer_sent e) chain)
       /\ wev_ready (r_conn r) = false
       /\ wev_error (r_conn r) = wev_error ready_conn
       /\ c_sent (r_conn r) = c_sent ready_conn + xfer_sent e.
Proof.
  intros pl e chain.
  split; [repeat split; reflexivity|].
  exact (sendfile_would_block_stops pl e [] ready_conn chain (file_hunk 3 0 10)
           eq_refl eq_refl eq_refl eq_refl eq_refl eq_refl eq_refl).
Defined.

Lemma advance_exact (cl : list hunk) :
  forallb hunk_ok cl = true -> forallb not_exhausted cl = true ->
  advance (chain_size cl) cl = (map pass cl, []).
Proof.
  induction cl as [|h t IH]; intros Hok Hne; [reflexivity|].
  simpl in Hok, Hne.
  apply andb_true_iff in Hok. destruct Hok as [Hh Ht].
  apply andb_true_iff in Hne. destruct Hne as [Hp Hnt].
  pose proof (chain_size_nonneg t Ht) as Hnn.
  simpl chain_size. simpl map. unfold pass at 1. unfold not_exhausted in Hp.
  destruct (ngx_hunk_special h) eqn:Hs.
  - rewrite (advance_special _ h t Hs). simpl Z.add.
    rewrite (IH Ht Hnt). reflexivity.
  - simpl in Hp. apply Z.ltb_lt in Hp.
    rewrite (advance_retire _ h t Hs) by lia.
    replace (remaining h + chain_size t - remaining h) with (chain_size t)
      by lia.
    rewrite (IH Ht Hnt). reflexivity.
Qed.

(** X11.  A full drain.  When the segments are well formed, none of them is
    exhausted, and a transfer call succeeds and reports exactly the bytes of
    the chain, the call returns [NULL]: every segment is retired, the sent
    counter grows by the size of the chain, and write-readiness and the fault
    flag stay as they were. *)
Theorem full_drain_returns_null (pl : platform) (e : attempt_env)
    (script : list attempt_env) (c : connection) (chain : list hunk)
    (Hok : forallb hunk_ok chain = true)
    (Hne : forallb not_exhausted chain = true)
    (Hready : wev_ready c = true)
    (Hkq : kqueue_event pl && wev_kq_eof c = false)
    (Hpool : pool_ok e = true)
    (Hnopush : nopush_harmless e = true)
    (Hrc : xfer_rc e <> -1)
    (Hall : reported_sent pl e chain = chain_size chain) :
  exists r,
    ngx_freebsd_sendfile_chain pl (e :: script) c chain = Some r
    /\ r_chain r = Some []
    /\ r_hunks r = map pass chain
    /\ wev_ready (r_conn r) = true
    /\ wev_error (r_conn r) = wev_error c
    /\ c_sent (r_conn r) = c_sent c + chain_size chain.
Proof.
  unfold ngx_freebsd_sendfile_chain. rewrite Hready, Hkq. simpl.
  destruct (attempt_success pl e c chain Hpool Hnopush Hrc)
    as (c1 & calls & -> & H1 & H2 & H3).
  rewrite account_inv, Hall, (advance_exact chain Hok Hne). simpl.
  rewrite tail_is_in_nil. simpl.
  eexists. split; [reflexivity|]. simpl. rewrite app_nil_r.
  split; [reflexivity|]. split; [reflexivity|].
  split; [congruence|]. split; [exact H2 | rewrite H3; reflexivity].
Qed.

Lemma full_drain_returns_null_witness :
  let pl := freebsd 1 0 in
  let e := env_ok 0 14 in
  let chain := [mem_hunk 100 102; mem_hunk 102 104; file_hunk 3 0 10] in
  (forallb hunk_ok chain = true /\ forallb not_exhausted chain = true
   /\ wev_ready ready_conn = true
   /\ kqueue_event pl && wev_kq_eof ready_conn = false
   /\ pool_ok e = true /\ nopush_harmless e = true /\ xfer_rc e <> -1
   /\ reported_sent pl e chain = chain_size chain)
  /\ exists r,
       ngx_freebsd_sendfile_chain pl [e] ready_conn chain = Some r
       /\ r_chain r = Some []
       /\ r_hunks r = map pass chain
       /\ wev_ready (r_conn r) = true
       /\ wev_error (r_conn r) = wev_error ready_conn
       /\ c_sent (r_conn r) = c_sent ready_conn + chain_size chain.
Proof.
  intros pl e chain.
  assert (Hrc : xfer_rc e <> -1) by discriminate.
  split; [repeat split; try reflexivity; exact Hrc|].
  exact (full_drain_returns_null pl e [] ready_conn chain
           eq_refl eq_refl eq_refl eq_refl eq_refl eq_refl Hrc eq_refl).
Defined.

(** X12.  TCP_NOPUSH is left alone where it is not wanted: on a platform
    that does not use it, or on a connection whose flag is already set, a
    call never calls [ngx_tcp_nopush()] and leaves the flag as it is. *)
Theorem nopush_only_when_wanted (pl : platform) (script : list attempt_env)
    (c : connection) (chain : list hunk) (r : result)
    (Hoff : ngx_freebsd_use_tcp_nopush pl = 0 \/ c_tcp_nopush c <> 0)
    (Hr : ngx_freebsd_sendfile_chain pl script c chain = Some r) :
  Forall (fun s => s <> Sys_tcp_nopush) (r_calls r)
  /\ c_tcp_nopush (r_conn r) = c_tcp_nopush c.
Proof.
  destruct (function_cases pl script c chain r Hr)
    as [(_ & ->)|[(_ & _ & ->)|(_ & _ & Hl)]]; simpl.
  - split; [constructor | reflexivity].
  - split; [constructor | reflexivity].
  - split.
    + apply (send_loop_calls_ind pl (fun s => s <> Sys_tcp_nopush)
               (fun c0 _ => ngx_freebsd_use_tcp_nopush pl = 0
                            \/ c_tcp_nopush c0 <> 0))
        with (script := script) (c := c) (cl := chain); auto.
      * intros e c0 cl s Hc0 Hin.
        destruct (attempt_calls_shape pl e c0 cl s Hin)
          as [(-> & _ & Hu & Hz)|[(f & _ & ->)|(_ & ->)]];
          [|discriminate|discriminate].
        destruct Hc0; contradiction.
      * intros e c0 cl c1 passed rest tail eintr eagain calls1 Hc0 Ha.
        destruct (attempt_advanced_inv pl e c0 cl _ _ _ _ _ _ _ Ha)
          as (_ & _ & _ & _ & _ & _ & _ & [Hk|(Hu & Hz & _)] & _).
        -- destruct Hc0 as [H|H]; [left; exact H | right; congruence].
        -- destruct Hc0; contradiction.
    + destruct (send_loop_conn pl script c chain r Hl)
        as (_ & _ & [Hk|(Hu & Hz & _)] & _); [exact Hk|].
      destruct Hoff; contradiction.
Qed.

Lemma nopush_only_when_wanted_witness :
  let pl := freebsd 0 0 in
  let chain := [mem_hunk 100 104; file_hunk 3 0 10] in
  let r := mkResult (Some []) (mkConn true false false 0 14)
             [mem_hunk 104 104; file_hunk 3 10 10]
             [Sys_sendfile 3 0 10 [mkIov 100 4] []] in
  ((ngx_freebsd_use_tcp_nopush pl = 0 \/ c_tcp_nopush ready_conn <> 0)
   /\ ngx_freebsd_sendfile_chain pl [env_ok 0 14] ready_conn chain = Some r)
  /\ Forall (fun s => s <> Sys_tcp_nopush) (r_calls r)
  /\ c_tcp_nopush (r_conn r) = c_tcp_nopush ready_conn.
Proof.
  intros pl chain r.
  assert (Hoff : ngx_freebsd_use_tcp_nopush pl = 0
                 \/ c_tcp_nopush ready_conn <> 0) by (left; reflexivity).
  assert (Hr : ngx_freebsd_sendfile_chain pl [env_ok 0 14] ready_conn chain
               = Some r) by reflexivity.
  split; [split; assumption|].
  exact (nopush_only_when_wanted pl [env_ok 0 14] ready_conn chain r Hoff Hr).
Defined.

Lemma classify_file_in (iov_max : Z) (cl : list hunk) (f : hunk) :
  k_file (classify iov_max cl) = Some f -> In f cl /\ in_file f = true.
Proof.
  destruct (header_loop_split iov_max cl None [] 0) as (hp & E & _).
  unfold classify.
  destruct (header_loop iov_max None [] 0 cl) as [[header hsize] cl0].
  cbn [snd] in E. destruct cl0 as [|g cl1]; [discriminate|].
  destruct (in_file g) eqn:Hg; [|discriminate].
  destruct (file_loop g _ (file_last g) cl1) as [fsize cl2].
  destruct (trailer_loop iov_max None [] cl2) as [trailer cl3].
  simpl. intro H. injection H as <-.
  split; [|exact Hg]. rewrite E. apply in_or_app. right. left. reflexivity.
Qed.

Lemma no_file_same_ends (a b : list hunk) :
  Forall2 same_ends a b ->
  forallb (fun h => negb (in_file h)) a = forallb (fun h => negb (in_file h)) b.
Proof.
  induction 1 as [|x y a b Hxy _ IH]; [reflexivity|]. simpl. rewrite IH.
  destruct Hxy as (Ht & _).
  destruct (flags_of_type x y Ht) as (_ & -> & _). reflexivity.
Qed.

(** X13.  [sendfile()] is for file hunks only: on a chain without any file
    hunk, every system call of a call is a [writev()] (no [sendfile()], no
    [ngx_tcp_nopush()]). *)
Theorem memory_chain_uses_writev_only (pl : platform)
    (script : list attempt_env) (c : connection) (chain : list hunk)
    (r : result)
    (Hmem : forallb (fun h => negb (in_file h)) chain = true)
    (Hr : ngx_freebsd_sendfile_chain pl script c chain = Some r) :
  Forall is_writev (r_calls r).
Proof.
  destruct (function_cases pl script c chain r Hr)
    as [(_ & ->)|[(_ & _ & ->)|(_ & _ & Hl)]]; try (simpl; constructor).
  apply (send_loop_calls_ind pl is_writev
           (fun _ cl => forallb (fun h => negb (in_file h)) cl = true))
    with (script := script) (c := c) (cl := chain); auto.
  - intros e c0 cl s Hcl Hin.
    assert (Hnone : k_file (classify (IOV_MAX pl) cl) = None).
    { destruct (k_file (classify (IOV_MAX pl) cl)) as [f|] eqn:Hf;
        [|reflexivity].
      destruct (classify_file_in _ _ _ Hf) as [Hin' Hff].
      rewrite forallb_forall in Hcl. specialize (Hcl f Hin').
      rewrite Hff in Hcl. discriminate. }
    destruct (attempt_calls_shape pl e c0 cl s Hin)
      as [(_ & Hne & _)|[(f & Hf & _)|(_ & ->)]].
    + contradiction.
    + congruence.
    + exact I.
  - intros e c0 cl c1 passed rest tail eintr eagain calls1 Hcl Ha.
    destruct (attempt_advanced_inv pl e c0 cl _ _ _ _ _ _ _ Ha)
      as (Hp & Hrest & _).
    destruct (advance_frame cl (reported_sent pl e cl)) as [Hf _].
    rewrite <- Hp, <- Hrest in Hf.
    rewrite (no_file_same_ends _ _ Hf), forallb_app in Hcl.
    apply andb_true_iff in Hcl. apply Hcl.
Qed.

Lemma memory_chain_uses_writev_only_witness :
  let pl := freebsd 1 0 in
  let chain := [mem_hunk 100 104; flush_hunk; mem_hunk 200 203] in
  let r := mkResult (Some [mem_hunk 201 203]) (mkConn false false false 0 5)
             [mem_hunk 104 104; flush_hunk; mem_hunk 201 203]
             [Sys_writev [mkIov 100 4; mkIov 200 3]] in
  (forallb (fun h => negb (in_file h)) chain = true
   /\ ngx_freebsd_sendfile_chain pl [env_ok 5 0] ready_conn chain = Some r)
  /\ Forall is_writev (r_calls r).
Proof.
  intros pl chain r.
  assert (Hr : ngx_freebsd_sendfile_chain pl [env_ok 5 0] ready_conn chain
               = Some r) by reflexivity.
  split; [split; [reflexivity | exact Hr]|].
  exact (memory_chain_uses_writev_only pl [env_ok 5 0] ready_conn chain r
           eq_refl Hr).
Defined.

(** ** The vector limit and the tail *)

Lemma header_loop_apart (iov_max : Z) (cl : list hunk) :
  forall prev header hsize,
    forallb ngx_hunk_in_memory_only cl = true ->
    apart prev cl = true ->
    Z.of_nat (length header) <= iov_max ->
    let n := Z.to_nat (iov_max - Z.of_nat (length header)) in
    fst (fst (header_loop iov_max prev header hsize cl))
    = rev (map entry_of (firstn n cl)) ++ header
    /\ snd (header_loop iov_max prev header hsize cl) = skipn n cl.
Proof.
  induction cl as [|h t IH]; intros prev header hsize Hmo Hap Hlen n.
  - simpl. rewrite firstn_nil, skipn_nil. split; reflexivity.
  - simpl in Hmo, Hap.
    apply andb_true_iff in Hmo. destruct Hmo as [Hh Ht].
    apply andb_true_iff in Hap. destruct Hap as [Hp Hap].
    apply negb_true_iff in Hp.
    destruct (Z.ltb_spec (Z.of_nat (length header)) iov_max) as [Hlt|Hge].
    + rewrite header_loop_memory by assumption. rewrite Hp.
      destruct (IH (Some (last h))
                  (mkIov (pos h) (to_size_t (last h - pos h)) :: header)
                  (to_size_t (hsize + (last h - pos h))) Ht Hap
                  ltac:(simpl length; lia)) as [I1 I2].
      assert (Hn : n = S (Z.to_nat (iov_max - Z.of_nat
                   (length (mkIov (pos h) (to_size_t (last h - pos h))
                            :: header))))).
      { unfold n. simpl length. lia. }
      rewrite Hn. simpl firstn. simpl skipn. simpl map. simpl rev.
      rewrite I1, I2. rewrite <- app_assoc. split; reflexivity.
    + assert (Hn : n = O) by (unfold n; lia).
      rewrite Hn. simpl.
      destruct (Z.ltb_spec (Z.of_nat (length header)) iov_max); [lia|].
      split; reflexivity.
Qed.

(** X14.  The vector limit and the tail.  For a chain of memory-only
    hunks of which no two neighbours are contiguous, the header vector has
    one entry per hunk for the first [IOV_MAX] hunks and no more; there is no
    file region, and the tail is the chain from hunk number [IOV_MAX] on
    ([NULL] when the chain is not longer than that). *)
Theorem vector_limit_and_tail (iov_max : Z) (chain : list hunk)
    (Hmax : 0 <= iov_max)
    (Hmem : forallb ngx_hunk_in_memory_only chain = true)
    (Hapart : apart None chain = true) :
  let k := classify iov_max chain in
  k_header k = map entry_of (firstn (Z.to_nat iov_max) chain)
  /\ k_file k = None
  /\ k_trailer k = []
  /\ k_tail k = skipn (Z.to_nat iov_max) chain.
Proof.
  intro k.
  destruct (header_loop_apart iov_max chain None [] 0 Hmem Hapart
              ltac:(simpl; lia)) as [H1 H2].
  simpl length in H1, H2. rewrite Z.sub_0_r in H1, H2.
  assert (Hnf : forall f cl1, skipn (Z.to_nat iov_max) chain = f :: cl1 ->
                  in_file f = false).
  { intros f cl1 E.
    assert (Hin : In f chain).
    { rewrite <- (firstn_skipn (Z.to_nat iov_max) chain), E.
      apply in_or_app. right. left. reflexivity. }
    rewrite forallb_forall in Hmem.
    destruct (memory_only_flags f (Hmem f Hin)) as (_ & Hf & _). exact Hf. }
  unfold k, classify.
  destruct (header_loop iov_max None [] 0 chain) as [[header hsize] cl].
  cbn [fst snd] in H1, H2. subst header cl.
  rewrite app_nil_r, rev_involutive.
  destruct (skipn (Z.to_nat iov_max) chain) as [|f cl1] eqn:E.
  - repeat split.
  - rewrite (Hnf f cl1 eq_refl). repeat split.
Qed.

Lemma vector_limit_and_tail_witness :
  let chain := [mem_hunk 100 104; mem_hunk 200 204; mem_hunk 300 304] in
  (0 <= 2 /\ forallb ngx_hunk_in_memory_only chain = true
   /\ apart None chain = true)
  /\ k_header (classify 2 chain) = [mkIov 100 4; mkIov 200 4]
  /\ k_tail (classify 2 chain) = [mem_hunk 300 304].
Proof.
  intro chain.
  assert (Hmax : 0 <= 2) by lia.
  destruct (vector_limit_and_tail 2 chain Hmax eq_refl eq_refl)
    as (Hh & _ & _ & Ht).
  split; [repeat split; try reflexivity; exact Hmax|].
  split; [exact Hh | exact Ht].
Defined.

(** X15.  A transfer call that fails for good.  When [sendfile()] or
    [writev()] fails in the first pass with an error other than "would
    block" and "interrupted", the call returns the error value with the
    fault flag set; no cursor of any hunk has moved, the sent counter and
    write-readiness are as they were, and no further pass is made. *)
Theorem transfer_failure_is_fatal (pl : platform) (e : attempt_env)
    (script : list attempt_env) (c : connection) (chain : list hunk)
    (Hready : wev_ready c = true)
    (Hkq : kqueue_event pl && wev_kq_eof c = false)
    (Hpool : pool_ok e = true)
    (Hnopush : nopush_harmless e = true)
    (Hrc : xfer_rc e = -1)
    (Hagain : xfer_errno e <> NGX_EAGAIN)
    (Hintr : xfer_errno e <> NGX_EINTR) :
  exists r,
    ngx_freebsd_sendfile_chain pl (e :: script) c chain = Some r
    /\ r_chain r = None
    /\ r_hunks r = chain
    /\ wev_error (r_conn r) = true
    /\ wev_ready (r_conn r) = wev_ready c
    /\ c_sent (r_conn r) = c_sent c.
Proof.
  unfold ngx_freebsd_sendfile_chain. rewrite Hready, Hkq. simpl.
  unfold attempt. rewrite Hpool, Hrc. simpl.
  apply Z.eqb_neq in Hagain, Hintr. rewrite Hagain, Hintr. simpl.
  destruct (k_file (classify (IOV_MAX pl) chain)) as [file|].
  - destruct (nopush_step_harmless pl e c Hnopush)
      as (c1 & calls & En & H1 & _ & H3).
    rewrite En.
    eexists. split; [reflexivity|]. simpl.
    repeat split; try assumption; try congruence.
  - eexists. split; [reflexivity|]. simpl. repeat split; assumption.
Qed.

Lemma transfer_failure_is_fatal_witness :
  let pl := freebsd 1 0 in
  let e := env_err 32 0 in
  let chain := [mem_hunk 100 104; file_hunk 3 0 10] in
  (wev_ready ready_conn = true
   /\ kqueue_event pl && wev_kq_eof ready_conn = false
   /\ pool_ok e = true /\ nopush_harmless e = true
   /\ xfer_rc e = -1 /\ xfer_errno e <> NGX_EAGAIN
   /\ xfer_errno e <> NGX_EINTR)
  /\ exists r,
       ngx_freebsd_sendfile_chain pl [e] ready_conn chain = Some r
       /\ r_chain r = None
       /\ r_hunks r = chain
       /\ wev_error (r_conn r) = true
       /\ wev_ready (r_conn r) = wev_ready ready_conn
       /\ c_sent (r_conn r) = c_sent ready_conn.
Proof.
  intros pl e chain.
  assert (Ha : xfer_errno e <> NGX_EAGAIN) by discriminate.
  assert (Hi : xfer_errno e <> NGX_EINTR) by discriminate.
  split; [repeat split; try reflexivity; assumption|].
  exact (transfer_failure_is_fatal pl e [] ready_conn chain
           eq_refl eq_refl eq_refl eq_refl eq_refl Ha Hi).
Defined.
